(** * mcp-registry-interface: the README extractor, the freshness cache and
    the four tool handlers of [src/index.js], embedded in Rocq.

    Strings are JavaScript strings: sequences of UTF-16 code units.  The
    regular expressions of the source are written as syntax trees and run by
    a backtracking matcher that follows the ECMAScript matching order
    (leftmost start, alternatives left to right, greedy and lazy
    quantifiers). *)

From Stdlib Require Import String Ascii.
From Stdlib Require Import List NArith ZArith Bool Lia PeanoNat.
Import ListNotations.

Set Implicit Arguments.

(* ------------------------------------------------------------------ *)
(** ** JavaScript strings *)
(* ------------------------------------------------------------------ *)

Module JS.

(** A UTF-16 code unit. *)
Definition char := N.
Definition str := list char.

(** An ASCII literal of the source as a sequence of code units. *)
Definition lit (s : string) : str := map N_of_ascii (list_ascii_of_string s).

Definition chr_eqb : char -> char -> bool := N.eqb.

(** [a === b] on strings. *)
Fixpoint str_eqb (a b : str) : bool :=
  match a, b with
  | [], [] => true
  | x :: a', y :: b' => chr_eqb x y && str_eqb a' b'
  | _, _ => false
  end.

Definition between (lo hi c : char) : bool := (N.leb lo c && N.leb c hi)%bool.

Local Open Scope N_scope.

(** LineTerminator: LF, CR, LS, PS. *)
Definition isLineTerminator (c : char) : bool :=
  (N.eqb c 10 || N.eqb c 13 || N.eqb c 8232 || N.eqb c 8233)%bool.

(** The class [\s]: WhiteSpace and LineTerminator code units. *)
Definition isSpace (c : char) : bool :=
  (between 9 13 c || N.eqb c 32 || N.eqb c 160 || N.eqb c 5760
   || between 8192 8202 c || N.eqb c 8232 || N.eqb c 8233 || N.eqb c 8239
   || N.eqb c 8287 || N.eqb c 12288 || N.eqb c 65279)%bool.

(** ASCII upper-casing, the canonicalisation the [i] flag applies to the
    ASCII characters of a pattern. *)
Definition asciiUpper (c : char) : char :=
  if between 97 122 c then (c - 32) else c.

(** ASCII lower-casing: [toLowerCase] restricted to Basic Latin. *)
Definition asciiLower (c : char) : char :=
  if between 65 90 c then (c + 32) else c.

Definition asciiToLowerCase (s : str) : str := map asciiLower s.

Local Close Scope N_scope.

Fixpoint startsWith (p s : str) : bool :=
  match p, s with
  | [], _ => true
  | x :: p', y :: s' => chr_eqb x y && startsWith p' s'
  | _ :: _, [] => false
  end.

(** [s.includes(p)]. *)
Fixpoint includes (s p : str) : bool :=
  startsWith p s ||
  match s with
  | [] => false
  | _ :: s' => includes s' p
  end.

(** [s.split('\n')] for a one-unit separator. *)
Fixpoint split (sep : char) (s : str) : list str :=
  match s with
  | [] => [[]]
  | c :: s' =>
      if chr_eqb c sep then [] :: split sep s'
      else match split sep s' with
           | l :: ls => (c :: l) :: ls
           | [] => [[c]]
           end
  end.

Fixpoint dropWhile (p : char -> bool) (s : str) : str :=
  match s with
  | [] => []
  | c :: s' => if p c then dropWhile p s' else s
  end.

(** [s.trim()]: white space and line terminators removed at both ends. *)
Definition trim (s : str) : str :=
  rev (dropWhile isSpace (rev (dropWhile isSpace s))).

(** [s.replace(/[cls]+/g, by)]: every maximal run of units of the class is
    replaced by [by]. *)
Fixpoint replaceRunsFrom (inRun : bool) (p : char -> bool) (by_ : str) (s : str) : str :=
  match s with
  | [] => []
  | c :: s' =>
      if p c then
        (if inRun then replaceRunsFrom true p by_ s'
         else by_ ++ replaceRunsFrom true p by_ s')
      else c :: replaceRunsFrom false p by_ s'
  end.

Definition replaceRuns := replaceRunsFrom false.

(** [s.replace(/[cls]/g, by)]: every unit of the class is replaced. *)
Definition replaceEach (p : char -> bool) (by_ : str) (s : str) : str :=
  flat_map (fun c => if p c then by_ else [c]) s.

(** [a.slice(0, n)] on arrays, for an integer [n]: a negative [n] counts
    from the end. *)
Definition slice0 {A} (n : Z) (l : list A) : list A :=
  if (n <? 0)%Z then firstn (length l - Z.to_nat (- n)) l
  else firstn (Z.to_nat n) l.

End JS.

(* ------------------------------------------------------------------ *)
(** ** Regular expressions *)
(* ------------------------------------------------------------------ *)

Module Regex.
Import JS.

(** The fragment of ECMAScript patterns the source uses.  Quantifiers are
    applied to character classes only, as in every pattern of the source. *)
Inductive regex :=
| Eps                           (* the empty pattern *)
| Chr (p : char -> bool)        (* one unit of a class *)
| Seq (r1 r2 : regex)
| Alt (r1 r2 : regex)           (* r1|r2 *)
| Star (p : char -> bool)       (* [cls]*   greedy *)
| StarLazy (p : char -> bool)   (* [cls]*?  lazy *)
| Group (n : nat) (r : regex)   (* capturing group number n *)
| Look (r : regex)              (* (?=r) *)
| Bos                           (* ^ without the m flag *)
| Eos.                          (* $ without the m flag *)

Definition Plus (p : char -> bool) : regex := Seq (Chr p) (Star p).

Definition captures := list (nat * str).

Fixpoint capture (n : nat) (c : captures) : option str :=
  match c with
  | [] => None
  | (m, s) :: c' => if Nat.eqb m n then Some s else capture n c'
  end.

Section Matcher.
Variable A : Type.

(** The continuation receives the index reached, the input left and the
    captures recorded so far. *)
Definition cont := nat -> str -> captures -> option A.

Fixpoint starGreedy (p : char -> bool) (i : nat) (s : str) (c : captures) (k : cont) : option A :=
  match s with
  | x :: s' =>
      if p x then
        match starGreedy p (S i) s' c k with
        | Some a => Some a
        | None => k i s c
        end
      else k i s c
  | [] => k i s c
  end.

Fixpoint starLazy (p : char -> bool) (i : nat) (s : str) (c : captures) (k : cont) : option A :=
  match k i s c with
  | Some a => Some a
  | None =>
      match s with
      | x :: s' => if p x then starLazy p (S i) s' c k else None
      | [] => None
      end
  end.

End Matcher.

(** [rmatch r i s c k]: match [r] at index [i], where [s] is the input from
    [i] on; on success continue with [k]; [None] makes the matcher backtrack. *)
Fixpoint rmatch {A} (r : regex) (i : nat) (s : str) (c : captures) (k : cont A) : option A :=
  match r with
  | Eps => k i s c
  | Chr p =>
      match s with
      | x :: s' => if p x then k (S i) s' c else None
      | [] => None
      end
  | Seq r1 r2 => rmatch r1 i s c (fun j s' c' => rmatch r2 j s' c' k)
  | Alt r1 r2 =>
      match rmatch r1 i s c k with
      | Some a => Some a
      | None => rmatch r2 i s c k
      end
  | Star p => starGreedy p i s c k
  | StarLazy p => starLazy p i s c k
  | Group n r1 =>
      rmatch r1 i s c (fun j s' c' => k j s' ((n, firstn (j - i) s) :: c'))
  | Look r1 =>
      match rmatch r1 i s c (fun _ _ c' => Some c') with
      | Some c' => k i s c'
      | None => None
      end
  | Bos => if Nat.eqb i 0 then k i s c else None
  | Eos => match s with [] => k i s c | _ :: _ => None end
  end.

(** The result of [RegExp.prototype.exec]: the matched text ([m[0]]) and the
    captures ([m[1]], [m[2]], ...). *)
Record rmatched := { matched : str; groups : captures; matchLength : nat }.

Definition matchAt (r : regex) (i : nat) (s : str) : option rmatched :=
  rmatch r i s [] (fun j _ c =>
    Some {| matched := firstn (j - i) s; groups := c; matchLength := j - i |}).

(** [s.match(r)] without the [g] flag: the leftmost match. *)
Fixpoint searchFrom (r : regex) (i : nat) (s : str) : option rmatched :=
  match matchAt r i s with
  | Some m => Some m
  | None =>
      match s with
      | [] => None
      | _ :: s' => searchFrom r (S i) s'
      end
  end.

Definition search (r : regex) (s : str) : option rmatched := searchFrom r 0 s.

(** The successive results of [r.exec(s)] for a pattern with the [g] flag,
    until it returns [null]: after a match the search resumes at its end
    ([lastIndex]).  [skip] counts the units of the last match still to be
    passed over. *)
Fixpoint execAllFrom (r : regex) (skip : nat) (i : nat) (s : str) : list rmatched :=
  match skip with
  | S skip' =>
      match s with
      | [] => []
      | _ :: s' => execAllFrom r skip' (S i) s'
      end
  | O =>
      match matchAt r i s with
      | Some m =>
          m :: match s with
               | [] => []
               | _ :: s' => execAllFrom r (matchLength m - 1) (S i) s'
               end
      | None =>
          match s with
          | [] => []
          | _ :: s' => execAllFrom r 0 (S i) s'
          end
      end
  end.

Definition execAll (r : regex) (s : str) : list rmatched := execAllFrom r 0 0 s.

(** A pattern text matched literally, unit by unit. *)
Fixpoint Lit (s : str) : regex :=
  match s with
  | [] => Eps
  | [x] => Chr (chr_eqb x)
  | x :: s' => Seq (Chr (chr_eqb x)) (Lit s')
  end.

(** The same under the [i] flag. *)
Fixpoint LitI (s : str) : regex :=
  match s with
  | [] => Eps
  | [x] => Chr (fun c => chr_eqb (asciiUpper c) (asciiUpper x))
  | x :: s' => Seq (Chr (fun c => chr_eqb (asciiUpper c) (asciiUpper x))) (LitI s')
  end.

(** Patterns without [$] and without lookahead: whether they match at an
    index does not depend on the text after the match. *)
Fixpoint suffixFree (r : regex) : bool :=
  match r with
  | Eps | Chr _ | Star _ | StarLazy _ | Bos => true
  | Seq r1 r2 | Alt r1 r2 => (suffixFree r1 && suffixFree r2)%bool
  | Group _ r1 => suffixFree r1
  | Look _ | Eos => false
  end.

(** The class of the first unit of every match, when the pattern starts with
    one. *)
Fixpoint firstClass (r : regex) : option (char -> bool) :=
  match r with
  | Chr p => Some p
  | Seq r1 _ => firstClass r1
  | Group _ r1 => firstClass r1
  | _ => None
  end.

End Regex.

(* ------------------------------------------------------------------ *)
(** ** The entry extractor ([parseREADMEContent]) *)
(* ------------------------------------------------------------------ *)

Module Registry.
Import JS Regex.

Record Repository := { url : str; type : str }.

Record Server := {
  id : str;
  name : str;
  description : str;
  category : str;
  author : str;
  repository : Repository;
  version : str;
  tags : list str;
  downloads : Z;
  stars : Z
}.

Local Infix ";;" := Seq (at level 61, right associativity).

(** Character classes of the patterns. *)
Definition anyUnit (_ : char) : bool := true.                      (* [\s\S] *)
Definition isBullet (c : char) : bool :=                           (* [•·-] *)
  (N.eqb c 8226 || N.eqb c 183 || N.eqb c 45)%bool.
Definition notStar (c : char) : bool := negb (N.eqb c 42).         (* [^*] *)
Definition isDash (c : char) : bool := N.eqb c 45.                 (* - *)
Definition dot (c : char) : bool := negb (isLineTerminator c).     (* . *)
Definition notBulletNl (c : char) : bool :=                        (* [^•·\n] *)
  negb (N.eqb c 8226 || N.eqb c 183 || N.eqb c 10).
Definition notIdChar (c : char) : bool :=                          (* [^a-z0-9-] *)
  negb (between 97%N 122%N c || between 48%N 57%N c || N.eqb c 45).

(** [/## Reference Servers[\s\S]*?(?=##|$)/i] *)
Definition referenceSectionRe : regex :=
  LitI (lit "## Reference Servers") ;; StarLazy anyUnit ;; Look (Alt (Lit (lit "##")) Eos).

(** [/## Community Servers[\s\S]*?(?=##|$)/i] *)
Definition communitySectionRe : regex :=
  LitI (lit "## Community Servers") ;; StarLazy anyUnit ;; Look (Alt (Lit (lit "##")) Eos).

(** [/^[•·-]\s*\*\*([^*]+)\*\*\s*-\s*(.+)/] *)
Definition bulletLineRe : regex :=
  Bos ;; Chr isBullet ;; Star isSpace ;; Lit (lit "**") ;; Group 1 (Plus notStar) ;;
  Lit (lit "**") ;; Star isSpace ;; Chr isDash ;; Star isSpace ;; Group 2 (Plus dot).

(** [/\*\*([^*]+)\*\*\s*-\s*([^•·\n]+)/g] *)
Definition serverPattern : regex :=
  Lit (lit "**") ;; Group 1 (Plus notStar) ;; Lit (lit "**") ;; Star isSpace ;;
  Chr isDash ;; Star isSpace ;; Group 2 (Plus notBulletNl).

(** [m[n]] of a match; every group of the patterns above takes part in
    every match. *)
Definition group (n : nat) (m : rmatched) : str :=
  match capture n (groups m) with
  | Some s => s
  | None => []
  end.

Definition isEmpty (s : str) : bool :=
  match s with [] => true | _ :: _ => false end.

Section Extractor.

(** [String.prototype.toLowerCase], the Unicode default case conversion. *)
Variable toLowerCase : str -> str.

(** [random k m] is [Math.floor(Math.random() * m)] at the [k]-th draw of one
    run of the extractor.  Every pushed entry draws twice and nothing else
    draws, so the entry pushed onto [servers] uses the draws
    [2 * length servers] and [2 * length servers + 1]. *)
Variable random : nat -> Z -> Z.

Definition referenceEntry (servers : list Server) (m : rmatched) : Server :=
  {| id := lit "mcp-" ++ replaceRuns isSpace (lit "-") (toLowerCase (group 1 m));
     name := lit "mcp-" ++ replaceRuns isSpace (lit "-") (toLowerCase (group 1 m));
     description := group 2 m;
     category := lit "official";
     author := lit "Anthropic";
     repository := {| url := lit "https://github.com/modelcontextprotocol/servers";
                      type := lit "github" |};
     version := lit "1.0.0";
     tags := [lit "official"; lit "reference"];
     downloads := random (2 * length servers) 10000 + 1000;
     stars := random (2 * length servers + 1) 500 + 50 |}.

Definition communityEntry (servers : list Server) (m : rmatched) : Server :=
  {| id := replaceRuns isSpace (lit "-") (toLowerCase (group 1 m));
     name := group 1 m;
     description := group 2 m;
     category := lit "community";
     author := lit "Community";
     repository := {| url := lit "https://github.com/community/" ++ group 1 m;
                      type := lit "github" |};
     version := lit "0.1.0";
     tags := [lit "community"];
     downloads := random (2 * length servers) 5000 + 100;
     stars := random (2 * length servers + 1) 200 + 10 |}.

(** The body of [lines.forEach] in the two section passes. *)
Definition sectionStep (entry : list Server -> rmatched -> Server)
    (servers : list Server) (line : str) : list Server :=
  match search bulletLineRe line with
  | Some m => servers ++ [entry servers m]
  | None => servers
  end.

Definition sectionPass (sectionRe : regex) (entry : list Server -> rmatched -> Server)
    (content : str) (servers : list Server) : list Server :=
  match search sectionRe content with
  | Some sec => fold_left (sectionStep entry) (split 10%N (matched sec)) servers
  | None => servers
  end.

Definition fallbackId (name_ : str) : str :=
  replaceRuns isDash (lit "-") (replaceEach notIdChar (lit "-") (toLowerCase name_)).

Definition fallbackEntry (servers : list Server) (name_ description_ : str) : Server :=
  {| id := fallbackId name_;
     name := name_;
     description := trim description_;
     category := if (includes name_ (lit "MCP") || includes name_ (lit "server"))%bool
                 then lit "official" else lit "community";
     author := lit "Community";
     repository := {| url := lit "https://github.com/community/" ++ fallbackId name_;
                      type := lit "github" |};
     version := lit "1.0.0";
     tags := [if includes name_ (lit "MCP") then lit "official" else lit "community"];
     downloads := random (2 * length servers) 3000 + 200;
     stars := random (2 * length servers + 1) 150 + 20 |}.

(** The body of the [while ((match = serverPattern.exec(content)) !== null)]
    loop. *)
Definition fallbackStep (servers : list Server) (m : rmatched) : list Server :=
  let name_ := group 1 m in
  let description_ := group 2 m in
  if (negb (isEmpty name_) && negb (isEmpty description_) && (length name_ <? 50))%bool then
    match find (fun s => str_eqb (id s) (fallbackId name_)) servers with
    | Some _ => servers
    | None => servers ++ [fallbackEntry servers name_ description_]
    end
  else servers.

Definition fallbackPass (content : str) (servers : list Server) : list Server :=
  fold_left fallbackStep (execAll serverPattern content) servers.

Definition parseREADMEContent (content : str) : list Server :=
  let servers := [] in
  let servers := sectionPass referenceSectionRe referenceEntry content servers in
  let servers := sectionPass communitySectionRe communityEntry content servers in
  let servers := fallbackPass content servers in
  firstn 50 servers.

End Extractor.

(* ------------------------------------------------------------------ *)
(** ** The freshness cache ([getServersData]) *)
(* ------------------------------------------------------------------ *)

(** What the upstream request of one tool call yields: a failure (network
    error, non-success status, undecodable body), or the decoded README. *)
Inductive Upstream :=
| UpstreamError (message : str)
| UpstreamReadme (content : str).

(** The environment of one tool call: [Date.now()], the upstream answer and
    the random draws. *)
Record Env := { now : Z; upstream : Upstream; random : nat -> Z -> Z }.

(** The module-level variables [cachedServers] ([None] is [null]) and
    [lastFetchTime]; [fetchCount] counts the calls of [fetch], to state how
    many fetches an operation performs. *)
Record State := {
  cachedServers : option (list Server);
  lastFetchTime : Z;
  fetchCount : nat
}.

Definition initialState : State :=
  {| cachedServers := None; lastFetchTime := 0; fetchCount := 0 |}.

Definition CACHE_DURATION : Z := 5 * 60 * 1000.

(** A computation that may throw, over the module state. *)
Inductive result (A : Type) :=
| Ok (a : A)
| Throw (message : str).
Arguments Ok {A} a.
Arguments Throw {A} message.

Definition M (A : Type) := State -> result A * State.

Definition ret {A} (a : A) : M A := fun st => (Ok a, st).
Definition throw {A} (message : str) : M A := fun st => (Throw message, st).
Definition bind {A B} (m : M A) (f : A -> M B) : M B :=
  fun st =>
    match m st with
    | (Ok a, st') => f a st'
    | (Throw e, st') => (Throw e, st')
    end.

Notation "x <- m ;; f" := (bind m (fun x => f))
  (at level 61, m at next level, right associativity).

Definition unableToFetch : str :=
  lit "Unable to fetch MCP servers from GitHub. Please check your internet connection and GitHub API availability.".

Section Server.

Variable toLowerCase : str -> str.

Definition fetchRealMCPServers (env : Env) : M (list Server) :=
  fun st =>
    let st' := {| cachedServers := cachedServers st;
                  lastFetchTime := lastFetchTime st;
                  fetchCount := S (fetchCount st) |} in
    match upstream env with
    | UpstreamError message => (Throw message, st')
    | UpstreamReadme content =>
        (Ok (parseREADMEContent toLowerCase (random env) content), st')
    end.

(** [cachedServers && (now - lastFetchTime) < CACHE_DURATION] *)
Definition cacheIsFresh (env : Env) (st : State) : bool :=
  match cachedServers st with
  | Some _ => (now env - lastFetchTime st <? CACHE_DURATION)%Z
  | None => false
  end.

(** [cachedServers = servers; lastFetchTime = now] *)
Definition storeSnapshot (env : Env) (servers : list Server) : M unit :=
  fun st =>
    (Ok tt, {| cachedServers := Some servers;
               lastFetchTime := now env;
               fetchCount := fetchCount st |}).

Definition getServersData (env : Env) : M (list Server) :=
  fun st =>
    match (if cacheIsFresh env st then cachedServers st else None) with
    | Some cached => (Ok cached, st)
    | None =>
        (servers <- fetchRealMCPServers env ;;
         if (0 <? length servers) then
           (_ <- storeSnapshot env servers ;; ret servers)
         else throw unableToFetch) st
    end.

(** *** The tool handlers *)

(** A string used as a condition: the empty string is falsy, and so is a
    missing argument ([undefined]). *)
Definition truthy (o : option str) : bool :=
  match o with
  | Some (_ :: _) => true
  | _ => false
  end.

(** The predicate of [servers.filter] under [if (query)]. *)
Definition matchesQuery (searchTerm : str) (server : Server) : bool :=
  (includes (toLowerCase (name server)) searchTerm
   || includes (toLowerCase (description server)) searchTerm
   || existsb (fun tag => includes (toLowerCase tag) searchTerm) (tags server))%bool.

(** The predicate of [filteredServers.filter] under [if (category)]. *)
Definition matchesCategory (category_ : str) (server : Server) : bool :=
  str_eqb (toLowerCase (category server)) (toLowerCase category_).

(** [limit = 20] in the destructuring of [args]: the default stands in for
    an absent ([undefined]) limit only. *)
Definition limitOrDefault (limit : option Z) : Z :=
  match limit with Some l => l | None => 20%Z end.

(** The list [filteredServers] the search handler renders. *)
Definition searchServers (query category_ : option str) (limit : option Z)
    (servers : list Server) : list Server :=
  let limit_ := limitOrDefault limit in
  let filteredServers := servers in
  let filteredServers :=
    match query with
    | Some ((_ :: _) as q) => filter (matchesQuery (toLowerCase q)) servers
    | _ => filteredServers
    end in
  let filteredServers :=
    match category_ with
    | Some ((_ :: _) as c) => filter (matchesCategory c) filteredServers
    | _ => filteredServers
    end in
  slice0 limit_ filteredServers.

(** [servers.find(s => s.id === serverId || s.name === serverId ||
    s.id === `mcp-${serverId}` || s.name === `mcp-${serverId}`)] *)
Definition detailsMatch (serverId : str) (s : Server) : bool :=
  (str_eqb (id s) serverId
   || str_eqb (name s) serverId
   || str_eqb (id s) (lit "mcp-" ++ serverId)
   || str_eqb (name s) (lit "mcp-" ++ serverId))%bool.

Definition findServer (serverId : str) (servers : list Server) : option Server :=
  find (detailsMatch serverId) servers.

End Server.

(** *** Categories *)

Record CategoryInfo := { count : nat; description_ : str }.

(** The table [descriptions] of [getCategoryDescription]. *)
Definition descriptions : list (str * str) :=
  [ (lit "official", lit "Official MCP servers maintained by Anthropic");
    (lit "community", lit "Community-contributed MCP servers");
    (lit "filesystem", lit "File and directory operations");
    (lit "development", lit "Development tools and version control");
    (lit "memory", lit "Memory and context management systems");
    (lit "database", lit "Database connectivity and operations");
    (lit "web", lit "Web scraping and HTTP operations");
    (lit "ai", lit "AI model integrations and tools") ].

Definition genericDescription : str := lit "Various MCP server functionality".

(** Own-property lookup in an object literal, kept as its list of entries in
    insertion order. *)
Fixpoint lookup {V} (key : str) (o : list (str * V)) : option V :=
  match o with
  | [] => None
  | (k, v) :: o' => if str_eqb k key then Some v else lookup key o'
  end.

(** The property names every object inherits from [Object.prototype]: for
    these, [o[key]] is truthy on an object without such an own property. *)
Definition objectPrototypeKeys : list str :=
  [ lit "constructor"; lit "__proto__"; lit "hasOwnProperty"; lit "isPrototypeOf";
    lit "propertyIsEnumerable"; lit "toLocaleString"; lit "toString"; lit "valueOf";
    lit "__defineGetter__"; lit "__defineSetter__"; lit "__lookupGetter__";
    lit "__lookupSetter__" ].

Definition inherited (key : str) : bool :=
  existsb (str_eqb key) objectPrototypeKeys.

(** [descriptions[category] || 'Various MCP server functionality'], for a
    category that is not an inherited property name (the handler calls it
    for no other, see [categoryStep]). *)
Definition getCategoryDescription (category_ : str) : str :=
  match lookup category_ descriptions with
  | Some d => d
  | None => genericDescription
  end.

Fixpoint increment (key : str) (o : list (str * CategoryInfo)) : list (str * CategoryInfo) :=
  match o with
  | [] => []
  | (k, v) :: o' =>
      if str_eqb k key
      then (k, {| count := S (count v); description_ := description_ v |}) :: o'
      else (k, v) :: increment key o'
  end.

(** The body of [servers.forEach] in the categories handler.  When
    [categories[cat]] is an inherited member, no own property is created and
    the increment lands on that member: [categories] keeps its entries. *)
Definition categoryStep (categories : list (str * CategoryInfo)) (server : Server)
    : list (str * CategoryInfo) :=
  let cat := if isEmpty (category server) then lit "other" else category server in
  match lookup cat categories with
  | Some _ => increment cat categories
  | None =>
      if inherited cat then categories
      else categories ++ [(cat, {| count := 1; description_ := getCategoryDescription cat |})]
  end.

(** The own entries of [categories] after the loop.  ([Object.entries] lists
    keys that are array indices first; the order plays no role below.) *)
Definition listCategories (servers : list Server) : list (str * CategoryInfo) :=
  fold_left categoryStep servers [].

(** *** Requests and results *)

Inductive Request :=
| registry_search_servers (query category_ : option str) (limit : option Z)
| registry_get_server_details (serverId : option str)
| registry_list_categories
| registry_refresh_data
| unknown_tool (name_ : str).

(** What a handler renders into its text block. *)
Inductive Content :=
| SearchResults (query category_ : option str) (filteredServers : list Server)
| ServerNotFound (serverId : str)
| ServerDetails (server : Server)
| CategoryList (categories : list (str * CategoryInfo))
| DataRefreshed (found : nat)
| ErrorText (message : str).

(** [{ content: [{ type: 'text', text }], isError }] *)
Record ToolResult := { content : Content; isError : bool }.

Section Dispatch.

Variable toLowerCase : str -> str.

(** [cachedServers = null; lastFetchTime = 0] *)
Definition invalidate : M unit :=
  fun st =>
    (Ok tt, {| cachedServers := None; lastFetchTime := 0; fetchCount := fetchCount st |}).

(** The [switch] of the [CallToolRequestSchema] handler. *)
Definition handle (env : Env) (request : Request) : M Content :=
  match request with
  | registry_search_servers query category_ limit =>
      servers <- getServersData toLowerCase env ;;
      ret (SearchResults query category_
             (searchServers toLowerCase query category_ limit servers))
  | registry_get_server_details serverId =>
      match serverId with
      | Some ((_ :: _) as sid) =>
          servers <- getServersData toLowerCase env ;;
          match findServer sid servers with
          | Some server => ret (ServerDetails server)
          | None => ret (ServerNotFound sid)
          end
      | _ => throw (lit "serverId is required")
      end
  | registry_list_categories =>
      servers <- getServersData toLowerCase env ;;
      ret (CategoryList (listCategories servers))
  | registry_refresh_data =>
      _ <- invalidate ;;
      servers <- getServersData toLowerCase env ;;
      ret (DataRefreshed (length servers))
  | unknown_tool name_ => throw (lit "Unknown tool: " ++ name_)
  end.

(** The handler with its [try]/[catch]. *)
Definition callTool (env : Env) (request : Request) (st : State) : ToolResult * State :=
  match handle env request st with
  | (Ok c, st') => ({| content := c; isError := false |}, st')
  | (Throw message, st') => ({| content := ErrorText message; isError := true |}, st')
  end.

(** The states the server can be in: the initial one and those reached by
    tool calls. *)
Inductive reachable : State -> Prop :=
| reach_init : reachable initialState
| reach_call env request st :
    reachable st -> reachable (snd (callTool env request st)).

End Dispatch.


(** *** Notions used in the statements *)

(** The entries of the reference and the community pass, before the
    fallback pass runs. *)
Definition sectionEntries (toLowerCase : str -> str) (random : nat -> Z -> Z)
    (content : str) : list Server :=
  sectionPass communitySectionRe (communityEntry toLowerCase random) content
    (sectionPass referenceSectionRe (referenceEntry toLowerCase random) content []).

(** The entries of the reference pass alone. *)
Definition referenceEntries (toLowerCase : str -> str) (random : nat -> Z -> Z)
    (content : str) : list Server :=
  sectionPass referenceSectionRe (referenceEntry toLowerCase random) content [].

(** The id the reference pass derives from the bold text of a bullet. *)
Definition referenceId (toLowerCase : str -> str) (bold : str) : str :=
  lit "mcp-" ++ replaceRuns isSpace (lit "-") (toLowerCase bold).

(** No two entries of the list carry the same id. *)
Fixpoint distinctIds (servers : list Server) : bool :=
  match servers with
  | [] => true
  | s :: rest =>
      (negb (existsb (fun s' => str_eqb (id s') (id s)) rest) && distinctIds rest)%bool
  end.

(** A document none of whose lines is a bullet line, and a document in
    which the generic pattern has no match. *)
Definition noBulletLine (content : str) : bool :=
  forallb (fun line => match search bulletLineRe line with
                       | Some _ => false
                       | None => true
                       end)
          (split 10%N content).

Definition noGenericMatch (content : str) : bool :=
  match execAll serverPattern content with
  | [] => true
  | _ :: _ => false
  end.

(** A listed category carries the description [getCategoryDescription]
    gives for its name. *)
Definition descriptionOk (entry : str * CategoryInfo) : Prop :=
  description_ (snd entry) = getCategoryDescription (fst entry).

(** The categories the extractor assigns. *)
Definition extractedCategory (c : str) : Prop :=
  c = lit "official" \/ c = lit "community".

(** The cached snapshot and its timestamp are the same in both states. *)
Definition sameCache (st st' : State) : Prop :=
  cachedServers st' = cachedServers st /\ lastFetchTime st' = lastFetchTime st.

(** The state after one more fetch that stored nothing. *)
Definition afterFetch (st : State) : State :=
  {| cachedServers := cachedServers st;
     lastFetchTime := lastFetchTime st;
     fetchCount := S (fetchCount st) |}.

(** What the cache may hold: nothing, or a non-empty snapshot the extractor
    produced. *)
Definition cacheInv (toLowerCase : str -> str) (st : State) : Prop :=
  forall servers, cachedServers st = Some servers ->
    servers <> [] /\
    exists random_ content, servers = parseREADMEContent toLowerCase random_ content.

(** *** The search of the specification

    The result of the search as the specification words it: the entries
    whose name, description or some tag contains the query, ignoring case, and
    whose category is the given one, ignoring case, a filter applying only
    when its argument is given; the first [limit] of them, in snapshot
    order. *)
Section SpecSearch.

Variable toLowerCase : str -> str.

Definition containsIgnoringCase (text query : str) : bool :=
  includes (toLowerCase text) (toLowerCase query).

Definition specQueryHolds (query : option str) (s : Server) : bool :=
  match query with
  | Some q =>
      (containsIgnoringCase (name s) q
       || containsIgnoringCase (description s) q
       || existsb (fun tag => containsIgnoringCase tag q) (tags s))%bool
  | None => true
  end.

Definition specCategoryHolds (category_ : option str) (s : Server) : bool :=
  match category_ with
  | Some c => str_eqb (toLowerCase (category s)) (toLowerCase c)
  | None => true
  end.

Definition specSearch (query category_ : option str) (limit : nat)
    (servers : list Server) : list Server :=
  firstn limit
    (filter (fun s => (specQueryHolds query s && specCategoryHolds category_ s)%bool) servers).

End SpecSearch.

(** An argument that is given and is not the empty string. *)
Definition nonEmpty (o : option str) : option str :=
  if truthy o then o else None.

(** The sum of the counts of a category listing, and how often a category
    is listed. *)
Definition totalCount (categories : list (str * CategoryInfo)) : nat :=
  list_sum (map (fun entry => count (snd entry)) categories).

Definition occurrences (key : str) (categories : list (str * CategoryInfo)) : nat :=
  length (filter (fun entry => str_eqb (fst entry) key) categories).

(** *** Concrete documents, snapshots and states *)

Definition nl : str := [10%N].

Definition zeroDraws : nat -> Z -> Z := fun _ _ => 0%Z.

(** The end-to-end document of the specification. *)
Definition scenarioDoc : str :=
  lit "## Reference Servers" ++ nl ++ lit "- **Filesystem** - Secure file ops" ++ nl ++
  lit "## Community Servers" ++ nl ++ lit "- **Slack Bot** - Chat integration".

(** Two reference bullets with the same bold name. *)
Definition twinDoc : str :=
  lit "## Reference Servers" ++ nl ++ lit "- **Git** - first" ++ nl ++ lit "- **Git** - second".

(** A document without any bullet line, and one without anything to
    extract. *)
Definition boldDoc : str := lit "**Foo** - bar".
Definition plainDoc : str := lit "# Servers" ++ nl ++ lit "Nothing is listed yet.".

(** The snapshot of the scenario document. *)
Definition scenarioSnapshot : list Server :=
  parseREADMEContent asciiToLowerCase zeroDraws scenarioDoc.

(** The entry the reference pass makes of the Filesystem bullet of the
    scenario document. *)
Definition filesystemEntry : Server :=
  {| id := lit "mcp-filesystem";
     name := lit "mcp-filesystem";
     description := lit "Secure file ops";
     category := lit "official";
     author := lit "Anthropic";
     repository := {| url := lit "https://github.com/modelcontextprotocol/servers";
                      type := lit "github" |};
     version := lit "1.0.0";
     tags := [lit "official"; lit "reference"];
     downloads := 1000;
     stars := 50 |}.

(** The matches of the patterns in the scenario document: the two bullet
    lines, and the two matches of the generic pattern. *)
Definition bulletMatch (bullet bold text : str) : rmatched :=
  {| matched := bullet ++ lit "**" ++ bold ++ lit "** - " ++ text;
     groups := [(2, text); (1, bold)];
     matchLength := length (bullet ++ lit "**" ++ bold ++ lit "** - " ++ text) |}.

Definition filesystemBullet : rmatched :=
  bulletMatch (lit "- ") (lit "Filesystem") (lit "Secure file ops").
Definition slackBullet : rmatched :=
  bulletMatch (lit "- ") (lit "Slack Bot") (lit "Chat integration").
Definition filesystemGeneric : rmatched :=
  bulletMatch [] (lit "Filesystem") (lit "Secure file ops").
Definition slackGeneric : rmatched :=
  bulletMatch [] (lit "Slack Bot") (lit "Chat integration").

(** The state after the scenario document was fetched at time 0. *)
Definition scenarioState : State :=
  {| cachedServers := Some scenarioSnapshot; lastFetchTime := 0; fetchCount := 1 |}.

(** A state holding the snapshot of the scenario document, captured at
    time 1000. *)
Definition heldState : State :=
  {| cachedServers := Some scenarioSnapshot;
     lastFetchTime := 1000;
     fetchCount := 1 |}.

(** A call made long after, while the upstream is failing. *)
Definition downEnv : Env :=
  {| now := 10000000;
     upstream := UpstreamError (lit "GitHub API error: 503 Service Unavailable");
     random := zeroDraws |}.

(** A call answered with the scenario document. *)
Definition scenarioEnv (time : Z) : Env :=
  {| now := time; upstream := UpstreamReadme scenarioDoc; random := zeroDraws |}.

(** Calls answered with the documents above. *)
Definition boldEnv : Env :=
  {| now := 0; upstream := UpstreamReadme boldDoc; random := zeroDraws |}.
Definition plainEnv : Env :=
  {| now := 0; upstream := UpstreamReadme plainDoc; random := zeroDraws |}.

End Registry.

(* ------------------------------------------------------------------ *)
(** ** What a match is, and the rest of the details handler *)
(* ------------------------------------------------------------------ *)

Module Semantics.
Import JS Regex.

(** [matches r i u rest c c']: at index [i], before the text [rest], the
    pattern [r] can consume exactly [u], turning the captures [c] into
    [c'].  The matcher returns one such match (the one ECMAScript's
    priorities select); the relation says what every match looks like. *)
Inductive matches : regex -> nat -> str -> str -> captures -> captures -> Prop :=
| m_eps i rest c : matches Eps i [] rest c c
| m_chr p x i rest c : p x = true -> matches (Chr p) i [x] rest c c
| m_seq r1 r2 i u1 u2 rest c c1 c2 :
    matches r1 i u1 (u2 ++ rest) c c1 ->
    matches r2 (i + length u1) u2 rest c1 c2 ->
    matches (Seq r1 r2) i (u1 ++ u2) rest c c2
| m_alt_l r1 r2 i u rest c c1 :
    matches r1 i u rest c c1 -> matches (Alt r1 r2) i u rest c c1
| m_alt_r r1 r2 i u rest c c1 :
    matches r2 i u rest c c1 -> matches (Alt r1 r2) i u rest c c1
| m_star p i u rest c : forallb p u = true -> matches (Star p) i u rest c c
| m_star_lazy p i u rest c : forallb p u = true -> matches (StarLazy p) i u rest c c
| m_group n r i u rest c c1 :
    matches r i u rest c c1 -> matches (Group n r) i u rest c ((n, u) :: c1)
| m_look r i u rest' c c1 :
    matches r i u rest' c c1 -> matches (Look r) i [] (u ++ rest') c c1
| m_bos rest c : matches Bos 0 [] rest c c
| m_eos i c : matches Eos i [] [] c c.

End Semantics.

Module Details.
Import JS Regex Registry.

(** [s.replace(pat, by)] for a string pattern: the first occurrence of
    [pat] is replaced. *)
Fixpoint replaceFirst (pat by_ s : str) : str :=
  if startsWith pat s then by_ ++ skipn (length pat) s
  else match s with
       | [] => []
       | c :: s' => c :: replaceFirst pat by_ s'
       end.

(** The installation block of the details handler, after its heading line:
    what the two branches on [server.category === 'official'] append to
    [text]. *)
Definition installationInstructions (server : Server) : str :=
  if str_eqb (category server) (lit "official") then
    lit "   **NPM:** `npx @modelcontextprotocol/server-"
      ++ replaceFirst (lit "mcp-") [] (name server) ++ lit "`" ++ nl
    ++ lit "   **Docker:** `docker run mcp/"
      ++ replaceFirst (lit "mcp-") [] (name server) ++ lit "`" ++ nl
  else
    lit "   **NPM:** `npx " ++ name server ++ lit "`" ++ nl
    ++ lit "   **GitHub:** Visit repository for installation instructions" ++ nl.

(** *** Notions used in the statements below *)

Definition noLineFeed (s : str) : Prop := Forall (fun c => c <> 10%N) s.


(** The text begins and ends with a unit that is not white space, unless it
    is empty. *)
Definition trimmed (s : str) : Prop :=
  (forall x rest, s = x :: rest -> isSpace x = false) /\
  (forall x front, s = front ++ [x] -> isSpace x = false).


(** How many entries of a snapshot are of a category. *)
Definition countCategory (key : str) (servers : list Server) : nat :=
  length (filter (fun e => str_eqb (category e) key) servers).

(** [l1] is [l2] with some elements left out, the order kept. *)
Inductive sublist {A} : list A -> list A -> Prop :=
| sub_nil : sublist [] []
| sub_skip x l1 l2 : sublist l1 l2 -> sublist l1 (x :: l2)
| sub_keep x l1 l2 : sublist l1 l2 -> sublist (x :: l1) (x :: l2).

(** The fields each pass fixes. *)
Definition referenceShaped (e : Server) : Prop :=
  category e = lit "official" /\ author e = lit "Anthropic" /\
  version e = lit "1.0.0" /\ tags e = [lit "official"; lit "reference"] /\
  url (repository e) = lit "https://github.com/modelcontextprotocol/servers" /\
  name e = id e.

Definition communityShaped (e : Server) : Prop :=
  category e = lit "community" /\ author e = lit "Community" /\
  version e = lit "0.1.0" /\ tags e = [lit "community"] /\
  url (repository e) = lit "https://github.com/community/" ++ name e.

Definition fallbackShaped (e : Server) : Prop :=
  author e = lit "Community" /\ version e = lit "1.0.0" /\
  url (repository e) = lit "https://github.com/community/" ++ id e /\
  (category e = lit "official" <->
   (includes (name e) (lit "MCP") || includes (name e) (lit "server"))%bool = true) /\
  (tags e = [lit "official"] <-> includes (name e) (lit "MCP") = true).

(** The requests whose handler reads the snapshot through
    [getServersData] without invalidating it first. *)
Definition readsSnapshot (request : Request) : bool :=
  match request with
  | registry_search_servers _ _ _ => true
  | registry_get_server_details (Some (_ :: _)) => true
  | registry_list_categories => true
  | _ => false
  end.

(** What a handler renders once it has the snapshot. *)
Definition answer (toLowerCase : str -> str) (request : Request) (servers : list Server)
    : Content :=
  match request with
  | registry_search_servers query category_ limit =>
      SearchResults query category_ (searchServers toLowerCase query category_ limit servers)
  | registry_get_server_details (Some sid) =>
      match findServer sid servers with
      | Some server => ServerDetails server
      | None => ServerNotFound sid
      end
  | registry_get_server_details None => ErrorText (lit "serverId is required")
  | registry_list_categories => CategoryList (listCategories servers)
  | registry_refresh_data => DataRefreshed (length servers)
  | unknown_tool name_ => ErrorText (lit "Unknown tool: " ++ name_)
  end.

(** The number a category is listed with, 0 when it is not listed. *)
Definition listedCount (key : str) (categories : list (str * CategoryInfo)) : nat :=
  match lookup key categories with
  | Some info => count info
  | None => 0
  end.

(** A call one hour after the scenario state was filled, the upstream
    down. *)
Definition lateDownEnv : Env :=
  {| now := 3600000;
     upstream := UpstreamError (lit "GitHub API error: 403 rate limit exceeded");
     random := zeroDraws |}.

End Details.

(* ------------------------------------------------------------------ *)
(** ** Properties *)
(* ------------------------------------------------------------------ *)

Module RegistryFacts.
Import JS Regex Registry.

(** *** Strings and lists *)

Lemma str_eqb_eq (a b : str) : str_eqb a b = true <-> a = b.
Proof.
  revert b; induction a as [|x a IH]; intros [|y b]; simpl; split; intro H;
    try reflexivity; try discriminate.
  - apply andb_true_iff in H as [Hx Hab].
    apply N.eqb_eq in Hx. apply IH in Hab. congruence.
  - injection H as -> ->. apply andb_true_iff; split.
    + apply N.eqb_refl.
    + now apply IH.
Qed.

Lemma str_eqb_refl (a : str) : str_eqb a a = true.
Proof. now apply str_eqb_eq. Qed.

Lemma str_eqb_neq (a b : str) : str_eqb a b = false <-> a <> b.
Proof.
  split.
  - intros H E. apply str_eqb_eq in E. congruence.
  - intro H. destruct (str_eqb a b) eqn:E; [|reflexivity].
    apply str_eqb_eq in E. contradiction.
Qed.

(** An invariant of a loop over a list is kept by the whole loop. *)
Lemma fold_left_inv {A B} (P : A -> Prop) (f : A -> B -> A) (l : list B) (a : A) :
  P a -> (forall a' x, P a' -> In x l -> P (f a' x)) -> P (fold_left f l a).
Proof.
  revert a; induction l as [|x l IH]; intros a Ha Hf; simpl; [exact Ha|].
  apply IH.
  - apply Hf; [exact Ha | now left].
  - intros a' y Ha' Hy. apply Hf; [exact Ha' | now right].
Qed.

(** *** The matcher *)

Section MatcherFacts.

(** A successful match continues from a split of the input: the continuation
    is entered with the input left after the units consumed. *)
Lemma starGreedy_consumes {A} (p : char -> bool) (s : str) :
  forall i c (k : cont A) a,
    starGreedy p i s c k = Some a ->
    exists j s' c', k j s' c' = Some a /\ exists u, s = u ++ s' /\ j = i + length u.
Proof.
  induction s as [|x s IH]; intros i c k a; simpl.
  - intro H. exists i, [], c. split; [exact H|]. exists []. split; [reflexivity | simpl; lia].
  - assert (k i (x :: s) c = Some a ->
            exists j s' c', k j s' c' = Some a /\
              exists u, x :: s = u ++ s' /\ j = i + length u) as Hhere.
    { intro H. exists i, (x :: s), c. split; [exact H|].
      exists []. split; [reflexivity | simpl; lia]. }
    destruct (p x); [|exact Hhere].
    destruct (starGreedy p (S i) s c k) as [b|] eqn:E; [|exact Hhere].
    intro H. injection H as ->.
    apply IH in E as [j [s' [c' [Hk [u [-> ->]]]]]].
    exists (S i + length u), s', c'. split; [exact Hk|].
    exists (x :: u). split; [reflexivity | simpl; lia].
Qed.

Lemma starLazy_consumes {A} (p : char -> bool) (s : str) :
  forall i c (k : cont A) a,
    starLazy p i s c k = Some a ->
    exists j s' c', k j s' c' = Some a /\ exists u, s = u ++ s' /\ j = i + length u.
Proof.
  induction s as [|x s IH]; intros i c k a; simpl.
  - destruct (k i [] c) as [b|] eqn:E; [|discriminate].
    intro H. injection H as ->. exists i, [], c. split; [exact E|].
    exists []. split; [reflexivity | simpl; lia].
  - destruct (k i (x :: s) c) as [b|] eqn:E.
    + intro H. injection H as ->. exists i, (x :: s), c. split; [exact E|].
      exists []. split; [reflexivity | simpl; lia].
    + destruct (p x); [|discriminate]. intro H.
      apply IH in H as [j [s' [c' [Hk [u [-> ->]]]]]].
      exists (S i + length u), s', c'. split; [exact Hk|].
      exists (x :: u). split; [reflexivity | simpl; lia].
Qed.

Lemma rmatch_consumes {A} (r : regex) :
  forall i s c (k : cont A) a,
    rmatch r i s c k = Some a ->
    exists j s' c', k j s' c' = Some a /\ exists u, s = u ++ s' /\ j = i + length u.
Proof.
  induction r as [|p|r1 IH1 r2 IH2|r1 IH1 r2 IH2|p|p|n r1 IH1|r1 IH1| |];
    intros i s c k a; simpl.
  - intro H. exists i, s, c. split; [exact H|]. exists []. split; [reflexivity | simpl; lia].
  - destruct s as [|x s]; [discriminate|]. destruct (p x); [|discriminate].
    intro H. exists (S i), s, c. split; [exact H|].
    exists [x]. split; [reflexivity | simpl; lia].
  - intro H. apply IH1 in H as [j1 [s1 [c1 [H [u1 [-> ->]]]]]].
    apply IH2 in H as [j2 [s2 [c2 [H [u2 [-> ->]]]]]].
    exists (i + length u1 + length u2), s2, c2. split; [exact H|].
    exists (u1 ++ u2). split; [now rewrite app_assoc | rewrite length_app; lia].
  - destruct (rmatch r1 i s c k) as [b|] eqn:E.
    + intro H. injection H as ->. now apply IH1 in E.
    + apply IH2.
  - apply starGreedy_consumes.
  - apply starLazy_consumes.
  - intro H. apply IH1 in H as [j [s' [c' [H Hu]]]]. now exists j, s', ((n, firstn (j - i) s) :: c').
  - destruct (rmatch r1 i s c (fun _ _ c' => Some c')) as [c'|]; [|discriminate].
    intro H. exists i, s, c'. split; [exact H|]. exists []. split; [reflexivity | simpl; lia].
  - destruct (i =? 0); [|discriminate].
    intro H. exists i, s, c. split; [exact H|]. exists []. split; [reflexivity | simpl; lia].
  - destruct s; [|discriminate].
    intro H. exists i, [], c. split; [exact H|]. exists []. split; [reflexivity | simpl; lia].
Qed.

(** A pattern that starts with a class consumes a unit of that class
    first. *)
Lemma rmatch_first {A} (r : regex) (p : char -> bool) :
  firstClass r = Some p ->
  forall i s c (k : cont A) a,
    rmatch r i s c k = Some a ->
    exists x s0, s = x :: s0 /\ p x = true /\
      exists j s' c', k j s' c' = Some a /\ exists u, s0 = u ++ s' /\ j = S i + length u.
Proof.
  induction r as [|q|r1 IH1 r2 _|r1 _ r2 _|q|q|n r1 IH1|r1 _| |];
    simpl; try discriminate.
  - intros Hp i s c k a. injection Hp as ->.
    destruct s as [|x s]; [discriminate|]. destruct (p x) eqn:Hx; [|discriminate].
    intro H. exists x, s. repeat split; auto. exists (S i), s, c. split; [exact H|].
    exists []. split; [reflexivity | simpl; lia].
  - intros Hp i s c k a H.
    apply (IH1 Hp) in H as [x [s0 [-> [Hx [j1 [s1 [c1 [H [u1 [-> ->]]]]]]]]]].
    apply rmatch_consumes in H as [j2 [s2 [c2 [H [u2 [-> ->]]]]]].
    exists x, (u1 ++ u2 ++ s2). repeat split; auto.
    exists (S i + length u1 + length u2), s2, c2. split; [exact H|].
    exists (u1 ++ u2). split; [now rewrite app_assoc | rewrite length_app; lia].
  - intros Hp i s c k a H.
    apply (IH1 Hp) in H as [x [s0 [-> [Hx [j [s' [c' [H Hu]]]]]]]].
    exists x, s0. repeat split; auto.
    now exists j, s', ((n, firstn (j - i) (x :: s0)) :: c').
Qed.

(** What [matchAt] and [search] return is a piece of the input. *)
Lemma matchAt_prefix (r : regex) (i : nat) (s : str) (m : rmatched) :
  matchAt r i s = Some m -> exists post, s = matched m ++ post.
Proof.
  unfold matchAt. intro H.
  apply rmatch_consumes in H as [j [s' [c' [H [u [-> Hj]]]]]].
  injection H as <-. cbn [matched]. exists s'.
  replace (j - i) with (length u) by lia.
  now rewrite firstn_app, firstn_all, Nat.sub_diag, app_nil_r.
Qed.

Lemma matchAt_first (r : regex) (p : char -> bool) (i : nat) (s : str) (m : rmatched) :
  firstClass r = Some p -> matchAt r i s = Some m ->
  exists x rest, matched m = x :: rest /\ p x = true.
Proof.
  unfold matchAt. intros Hp H.
  apply (rmatch_first r Hp) in H as [x [s0 [-> [Hx [j [s' [c' [H [u [-> Hj]]]]]]]]]].
  injection H as <-. cbn [matched].
  replace (j - i) with (S (length u)) by lia.
  exists x, (firstn (length u) (u ++ s')). split; [reflexivity | exact Hx].
Qed.

Lemma searchFrom_piece (r : regex) (s : str) :
  forall i m, searchFrom r i s = Some m -> exists pre post, s = pre ++ matched m ++ post.
Proof.
  induction s as [|x s IH]; intros i m; simpl.
  - destruct (matchAt r i []) as [m'|] eqn:E; [|discriminate].
    intro H. injection H as ->. apply matchAt_prefix in E as [post E]. now exists [], post.
  - destruct (matchAt r i (x :: s)) as [m'|] eqn:E.
    + intro H. injection H as ->. apply matchAt_prefix in E as [post E]. now exists [], post.
    + intro H. apply IH in H as [pre [post ->]]. now exists (x :: pre), post.
Qed.

Lemma searchFrom_first (r : regex) (p : char -> bool) (s : str) :
  firstClass r = Some p ->
  forall i m, searchFrom r i s = Some m -> exists x rest, matched m = x :: rest /\ p x = true.
Proof.
  intro Hp. induction s as [|x s IH]; intros i m; simpl.
  - destruct (matchAt r i []) as [m'|] eqn:E; [|discriminate].
    intro H. injection H as ->. now apply (matchAt_first _ _ _ Hp) in E.
  - destruct (matchAt r i (x :: s)) as [m'|] eqn:E.
    + intro H. injection H as ->. now apply (matchAt_first _ _ _ Hp) in E.
    + apply IH.
Qed.

(** A pattern without [$] and lookahead that matches a text matches every
    extension of the text. *)
Lemma starGreedy_falls_back {A} (p : char -> bool) (s : str) (i : nat) (c : captures)
    (k : cont A) :
  k i s c <> None -> starGreedy p i s c k <> None.
Proof.
  intro H. destruct s as [|x s]; simpl; [exact H|].
  destruct (p x); [|exact H].
  destruct (starGreedy p (S i) s c k); [discriminate | exact H].
Qed.

Section Extension.

Variables A B : Type.
Variable t : str.
Variable k : cont A.
Variable k2 : cont B.

Lemma starGreedy_extend (p : char -> bool) (s : str) :
  forall i c c2,
    (forall j s' c' c2', k j s' c' <> None -> k2 j (s' ++ t) c2' <> None) ->
    starGreedy p i s c k <> None -> starGreedy p i (s ++ t) c2 k2 <> None.
Proof.
  induction s as [|x s IH]; intros i c c2 Hk; simpl.
  - intro H. apply starGreedy_falls_back. now apply (Hk i [] c c2).
  - assert (k i (x :: s) c <> None ->
            match starGreedy p (S i) (s ++ t) c2 k2 with
            | Some a => Some a
            | None => k2 i (x :: s ++ t) c2
            end <> None) as Hhere.
    { intro H. destruct (starGreedy p (S i) (s ++ t) c2 k2); [discriminate|].
      now apply (Hk i (x :: s) c c2). }
    destruct (p x).
    + destruct (starGreedy p (S i) s c k) eqn:E; [|exact Hhere].
      intros _. assert (starGreedy p (S i) (s ++ t) c2 k2 <> None) as H'.
      { apply (IH (S i) c c2 Hk). congruence. }
      destruct (starGreedy p (S i) (s ++ t) c2 k2); [discriminate | contradiction].
    + intro H. now apply (Hk i (x :: s) c c2).
Qed.

Lemma starLazy_extend (p : char -> bool) (s : str) :
  forall i c c2,
    (forall j s' c' c2', k j s' c' <> None -> k2 j (s' ++ t) c2' <> None) ->
    starLazy p i s c k <> None -> starLazy p i (s ++ t) c2 k2 <> None.
Proof.
  induction s as [|x s IH]; intros i c c2 Hk; simpl.
  - destruct (k i [] c) eqn:E; [|congruence]. intros _.
    assert (k2 i t c2 <> None) as H' by (apply (Hk i [] c c2); congruence).
    destruct t; simpl; destruct (k2 i _ c2); congruence.
  - destruct (k i (x :: s) c) eqn:E.
    + intros _.
      assert (k2 i (x :: s ++ t) c2 <> None) as H'
        by (apply (Hk i (x :: s) c c2); congruence).
      destruct (k2 i (x :: s ++ t) c2); congruence.
    + destruct (p x); [|congruence]. intro H.
      destruct (k2 i (x :: s ++ t) c2); [discriminate|].
      now apply (IH (S i) c c2 Hk).
Qed.

End Extension.

Lemma rmatch_extend (t : str) (r : regex) :
  suffixFree r = true ->
  forall A B i s c c2 (k : cont A) (k2 : cont B),
    (forall j s' c' c2', k j s' c' <> None -> k2 j (s' ++ t) c2' <> None) ->
    rmatch r i s c k <> None -> rmatch r i (s ++ t) c2 k2 <> None.
Proof.
  induction r as [|p|r1 IH1 r2 IH2|r1 IH1 r2 IH2|p|p|n r1 IH1|r1 _| |];
    simpl; try discriminate; intros Hr A B i s c c2 k k2 Hk.
  - apply Hk.
  - destruct s as [|x s]; [congruence|]. simpl.
    destruct (p x); [apply Hk | congruence].
  - apply andb_true_iff in Hr as [Hr1 Hr2].
    apply (IH1 Hr1). intros j s' c' c2'. now apply (IH2 Hr2).
  - apply andb_true_iff in Hr as [Hr1 Hr2].
    destruct (rmatch r1 i s c k) eqn:E.
    + intros _. assert (rmatch r1 i (s ++ t) c2 k2 <> None) as H'
        by (apply (IH1 Hr1 A B i s c c2 k k2 Hk); congruence).
      destruct (rmatch r1 i (s ++ t) c2 k2); congruence.
    + intro H. destruct (rmatch r1 i (s ++ t) c2 k2); [discriminate|].
      now apply (IH2 Hr2 A B i s c c2 k k2 Hk).
  - now apply starGreedy_extend.
  - now apply starLazy_extend.
  - apply (IH1 Hr). intros j s' c' c2'. apply Hk.
  - destruct (i =? 0); [apply Hk | congruence].
Qed.

Lemma searchFrom_extend (t : str) (r : regex) (s : str) :
  suffixFree r = true ->
  forall i, searchFrom r i s <> None -> searchFrom r i (s ++ t) <> None.
Proof.
  intro Hr.
  assert (forall i s', matchAt r i s' <> None -> matchAt r i (s' ++ t) <> None) as Hat.
  { intros i s'. unfold matchAt. apply (rmatch_extend t r Hr). discriminate. }
  induction s as [|x s IH]; intros i; simpl.
  - destruct (matchAt r i []) eqn:E; [|congruence]. intros _.
    assert (matchAt r i t <> None) as H' by (apply (Hat i []); congruence).
    destruct t as [|y t']; simpl.
    + rewrite E. discriminate.
    + destruct (matchAt r i (y :: t')); [discriminate | contradiction].
  - destruct (matchAt r i (x :: s)) eqn:E.
    + intros _. assert (matchAt r i (x :: s ++ t) <> None) as H'
        by (apply (Hat i (x :: s)); congruence).
      destruct (matchAt r i (x :: s ++ t)) eqn:E'; congruence.
    + intro H. destruct (matchAt r i (x :: s ++ t)); [discriminate|]. now apply IH.
Qed.

(** The lines of a piece of a text, the first one apart, are beginnings of
    lines of the text. *)
Lemma split_extend (sep : char) (post x : str) :
  exists h tl h' tl',
    split sep x = h :: tl /\ split sep (x ++ post) = h' :: tl' /\
    (exists t, h' = h ++ t) /\
    (forall l, In l tl -> exists L t, In L tl' /\ L = l ++ t).
Proof.
  induction x as [|c x IH]; simpl.
  - assert (exists h' tl', split sep post = h' :: tl') as [h' [tl' E]].
    { destruct post as [|c post]; simpl; [now eexists; eexists|].
      destruct (chr_eqb c sep); [now eexists; eexists|].
      destruct (split sep post); now eexists; eexists. }
    exists [], [], h', tl'. repeat split; auto.
    + now exists h'.
    + intros l [].
  - destruct IH as [h [tl [h' [tl' [E [E' [[t Ht] Htl]]]]]]]. rewrite E, E'.
    destruct (chr_eqb c sep).
    + exists [], (h :: tl), [], (h' :: tl'). repeat split; auto.
      * now exists [].
      * intros l [<- | Hl].
        -- exists h', t. split; [now left | exact Ht].
        -- destruct (Htl l Hl) as [L [t' [HL ->]]]. exists (l ++ t'), t'. split; [now right | reflexivity].
    + exists (c :: h), tl, (c :: h'), tl'. repeat split; auto.
      exists t. now rewrite Ht.
Qed.

Lemma split_tail_incl (sep : char) (pre y : str) :
  incl (tl (split sep y)) (tl (split sep (pre ++ y))).
Proof.
  induction pre as [|c pre IH]; simpl; [apply incl_refl|].
  destruct (chr_eqb c sep); simpl.
  - intros l Hl. apply IH in Hl. destruct (split sep (pre ++ y)); [destruct Hl | now right].
  - destruct (split sep (pre ++ y)) as [|h tl]; simpl in *; exact IH.
Qed.

Lemma split_piece (sep : char) (pre mid post : str) (l : str) :
  In l (tl (split sep mid)) ->
  exists L t, In L (split sep (pre ++ mid ++ post)) /\ L = l ++ t.
Proof.
  intro Hl.
  destruct (split_extend sep post mid) as [h [tl0 [h' [tl' [E [E' [_ Htl]]]]]]].
  rewrite E in Hl. simpl in Hl. destruct (Htl l Hl) as [L [t [HL ->]]].
  exists (l ++ t), t. split; [|reflexivity].
  assert (In (l ++ t) (tl (split sep (pre ++ mid ++ post)))) as Hin.
  { apply split_tail_incl. rewrite E'. exact HL. }
  destruct (split sep (pre ++ mid ++ post)); [destruct Hin | now right].
Qed.

Lemma split_first (sep x : char) (s : str) :
  chr_eqb x sep = false -> exists h tl, split sep (x :: s) = (x :: h) :: tl.
Proof.
  intro H. simpl. rewrite H. destruct (split sep s) as [|h tl]; now eexists; eexists.
Qed.

End MatcherFacts.

(** *** The extractor *)

Section ExtractorFacts.

Variable toLowerCase : str -> str.
Variable random : nat -> Z -> Z.

Lemma parseREADMEContent_passes (content : str) :
  parseREADMEContent toLowerCase random content
  = firstn 50 (fallbackPass toLowerCase random content
                 (sectionEntries toLowerCase random content)).
Proof. reflexivity. Qed.

(** The fallback loop body either leaves the list as it is or appends one
    entry whose id no collected entry carries. *)
Lemma fallbackStep_cases (servers : list Server) (m : rmatched) :
  fallbackStep toLowerCase random servers m = servers \/
  (exists e, fallbackStep toLowerCase random servers m = servers ++ [e] /\
             id e = fallbackId toLowerCase (group 1 m) /\
             ~ In (id e) (map id servers)).
Proof.
  unfold fallbackStep.
  destruct (negb (isEmpty (group 1 m)) && negb (isEmpty (group 2 m))
            && (length (group 1 m) <? 50))%bool; [|now left].
  destruct (find _ servers) eqn:Hfind; [now left|].
  right. eexists. split; [reflexivity|]. split; [reflexivity|].
  simpl. intro Hin. apply in_map_iff in Hin as [s [Hid Hs]].
  apply (find_none _ _ Hfind) in Hs. simpl in Hs.
  rewrite Hid, str_eqb_refl in Hs. discriminate.
Qed.

Lemma fallbackStep_dup (servers : list Server) (m : rmatched) (s : Server) :
  In s servers -> id s = fallbackId toLowerCase (group 1 m) ->
  fallbackStep toLowerCase random servers m = servers.
Proof.
  intros Hs Hid. unfold fallbackStep.
  destruct (negb (isEmpty (group 1 m)) && negb (isEmpty (group 2 m))
            && (length (group 1 m) <? 50))%bool; [|reflexivity].
  destruct (find _ servers) eqn:Hfind; [reflexivity|].
  apply (find_none _ _ Hfind) in Hs. simpl in Hs.
  rewrite Hid, str_eqb_refl in Hs. discriminate.
Qed.

Lemma fallbackStep_new (servers : list Server) (m : rmatched) :
  (negb (isEmpty (group 1 m)) && negb (isEmpty (group 2 m))
   && (length (group 1 m) <? 50))%bool = true ->
  (forall s, In s servers -> id s <> fallbackId toLowerCase (group 1 m)) ->
  fallbackStep toLowerCase random servers m
  = servers ++ [fallbackEntry toLowerCase random servers (group 1 m) (group 2 m)].
Proof.
  intros Hguard Hfresh. unfold fallbackStep. rewrite Hguard.
  destruct (find _ servers) as [s|] eqn:Hfind; [|reflexivity].
  apply find_some in Hfind as [Hin Heq]. apply str_eqb_eq in Heq.
  now apply Hfresh in Hin.
Qed.

(** The matches of the three passes in the scenario document. *)
Lemma scenario_reference_pass (entry : list Server -> rmatched -> Server) :
  sectionPass referenceSectionRe entry scenarioDoc [] = [entry [] filesystemBullet].
Proof. vm_compute. reflexivity. Qed.

Lemma scenario_community_pass (entry : list Server -> rmatched -> Server)
    (servers : list Server) :
  sectionPass communitySectionRe entry scenarioDoc servers
  = servers ++ [entry servers slackBullet].
Proof. vm_compute. reflexivity. Qed.

Lemma scenario_generic_matches :
  execAll serverPattern scenarioDoc = [filesystemGeneric; slackGeneric].
Proof. vm_compute. reflexivity. Qed.

(** C1 (code at the scenario document).  On the end-to-end document of the
    specification the extractor returns three entries, not two: after
    [mcp-filesystem] (official) and [slack-bot] (community), the fallback
    pass finds the bullet [**Filesystem**] again, derives the id
    [filesystem], which no collected entry carries, and appends it as a
    community entry. *)
Theorem scenario_yields_three_entries :
  toLowerCase (lit "Filesystem") = lit "filesystem" ->
  toLowerCase (lit "Slack Bot") = lit "slack bot" ->
  map (fun e => (id e, category e)) (parseREADMEContent toLowerCase random scenarioDoc)
  = [ (lit "mcp-filesystem", lit "official");
      (lit "slack-bot", lit "community");
      (lit "filesystem", lit "community") ].
Proof.
  intros HF HS.
  rewrite parseREADMEContent_passes. unfold sectionEntries, fallbackPass.
  rewrite scenario_reference_pass, scenario_community_pass, scenario_generic_matches.
  cbn [fold_left app].
  set (e1 := referenceEntry toLowerCase random [] filesystemBullet).
  set (e2 := communityEntry toLowerCase random [e1] slackBullet).
  assert (id e1 = lit "mcp-filesystem") as Hid1.
  { unfold e1, referenceEntry, id.
    change (group 1 filesystemBullet) with (lit "Filesystem"). now rewrite HF. }
  assert (id e2 = lit "slack-bot") as Hid2.
  { unfold e2, communityEntry, id.
    change (group 1 slackBullet) with (lit "Slack Bot"). now rewrite HS. }
  assert (fallbackId toLowerCase (lit "Filesystem") = lit "filesystem") as Hf1
    by (unfold fallbackId; now rewrite HF).
  assert (fallbackId toLowerCase (lit "Slack Bot") = lit "slack-bot") as Hf2
    by (unfold fallbackId; now rewrite HS).
  rewrite (fallbackStep_new [e1; e2] filesystemGeneric); [|reflexivity|].
  2:{ change (group 1 filesystemGeneric) with (lit "Filesystem"). rewrite Hf1.
      intros s [<- | [<- | []]]; [rewrite Hid1 | rewrite Hid2]; discriminate. }
  rewrite (fallbackStep_dup _ slackGeneric e2).
  2:{ right; now left. }
  2:{ change (group 1 slackGeneric) with (lit "Slack Bot"). now rewrite Hf2, Hid2. }
  change (group 1 filesystemGeneric) with (lit "Filesystem").
  cbn [app firstn map]. rewrite Hid1, Hid2.
  cbn [id fallbackEntry]. rewrite Hf1. reflexivity.
Qed.

Lemma NoDup_snoc {A} (l : list A) (x : A) : NoDup l -> ~ In x l -> NoDup (l ++ [x]).
Proof.
  intros Hl Hx. apply NoDup_app; [exact Hl | repeat constructor; intros [] |].
  intros a Ha [<-|[]]. contradiction.
Qed.

Lemma fallbackStep_distinct (servers : list Server) (m : rmatched) :
  NoDup (map id servers) ->
  NoDup (map id (fallbackStep toLowerCase random servers m)).
Proof.
  intro H. destruct (fallbackStep_cases servers m) as [-> | [e [-> [_ Hnew]]]];
    [exact H|].
  rewrite map_app. simpl. now apply NoDup_snoc.
Qed.

Lemma fallbackStep_extends (servers : list Server) (m : rmatched) :
  exists added, fallbackStep toLowerCase random servers m = servers ++ added.
Proof.
  destruct (fallbackStep_cases servers m) as [-> | [e [-> _]]].
  - exists []. now rewrite app_nil_r.
  - now exists [e].
Qed.

Lemma fallbackPass_extends (content : str) (servers : list Server) :
  exists added, fallbackPass toLowerCase random content servers = servers ++ added.
Proof.
  unfold fallbackPass.
  apply (fold_left_inv (fun acc => exists added, acc = servers ++ added)).
  - exists []. now rewrite app_nil_r.
  - intros acc m [added ->] _.
    destruct (fallbackStep_extends (servers ++ added) m) as [more ->].
    exists (added ++ more). now rewrite app_assoc.
Qed.

Lemma NoDup_firstn {A} (n : nat) (l : list A) : NoDup l -> NoDup (firstn n l).
Proof.
  intro H. rewrite <- (firstn_skipn n l) in H. now apply NoDup_app_remove_r in H.
Qed.

Lemma distinctIds_NoDup (servers : list Server) :
  distinctIds servers = true -> NoDup (map id servers).
Proof.
  induction servers as [|s rest IH]; simpl; intro H; [constructor|].
  apply andb_true_iff in H as [Hs Hrest]. constructor; [|now apply IH].
  intro Hin. apply in_map_iff in Hin as [s' [Hid Hs']].
  apply negb_true_iff in Hs.
  assert (existsb (fun s' => str_eqb (id s') (id s)) rest = true) as E.
  { apply existsb_exists. exists s'. split; [exact Hs'|]. now apply str_eqb_eq. }
  congruence.
Qed.

(** X22.  What the fallback pass does keep of the first-occurrence-wins
    rule: a match of the generic pattern whose derived id is carried by an
    entry already collected is dropped; the collected entries are all kept,
    in order; and when the entries of the reference and community passes
    have pairwise distinct ids, so has the result of [parseREADMEContent]. *)
Theorem fallback_pass_drops_colliding_ids (content : str) :
  (forall servers m s,
      In s servers ->
      id s = fallbackId toLowerCase (group 1 m) ->
      fallbackStep toLowerCase random servers m = servers) /\
  (forall servers, exists added,
      fallbackPass toLowerCase random content servers = servers ++ added) /\
  (NoDup (map id (sectionEntries toLowerCase random content)) ->
   NoDup (map id (parseREADMEContent toLowerCase random content))).
Proof.
  split; [|split].
  - intros servers m s. apply fallbackStep_dup.
  - intro servers. apply fallbackPass_extends.
  - intro H. rewrite parseREADMEContent_passes, <- firstn_map.
    apply NoDup_firstn. unfold fallbackPass.
    apply fold_left_inv; [exact H|].
    intros acc m Hacc _. now apply fallbackStep_distinct.
Qed.

(** Every entry the extractor returns is tagged official or community. *)
Lemma sectionPass_Forall (P : Server -> Prop) (sectionRe : regex)
    (entry : list Server -> rmatched -> Server) (content : str) (servers : list Server) :
  (forall acc m, P (entry acc m)) ->
  Forall P servers -> Forall P (sectionPass sectionRe entry content servers).
Proof.
  intros Hentry Hs. unfold sectionPass.
  destruct (search sectionRe content) as [sec|]; [|exact Hs].
  apply fold_left_inv; [exact Hs|].
  intros acc line Hacc _. unfold sectionStep.
  destruct (search bulletLineRe line) as [m|]; [|exact Hacc].
  apply Forall_app. split; [exact Hacc|]. constructor; [apply Hentry | constructor].
Qed.

Lemma Forall_firstn {A} (P : A -> Prop) (n : nat) (l : list A) :
  Forall P l -> Forall P (firstn n l).
Proof.
  intro H. rewrite <- (firstn_skipn n l) in H. now apply Forall_app in H.
Qed.

Lemma parseREADMEContent_categories (content : str) :
  Forall (fun e => extractedCategory (category e))
    (parseREADMEContent toLowerCase random content).
Proof.
  rewrite parseREADMEContent_passes. apply Forall_firstn.
  unfold fallbackPass. apply fold_left_inv.
  - unfold sectionEntries.
    apply sectionPass_Forall; [intros; now right|].
    apply sectionPass_Forall; [intros; now left | constructor].
  - intros acc m Hacc _.
    destruct (fallbackStep_cases acc m) as [-> | [e [E _]]]; [exact Hacc|].
    rewrite E. apply Forall_app. split; [exact Hacc|].
    constructor; [|constructor].
    unfold fallbackStep in E.
    destruct (negb (isEmpty (group 1 m)) && negb (isEmpty (group 2 m))
              && (length (group 1 m) <? 50))%bool.
    + destruct (find _ acc).
      * apply (f_equal (@length _)) in E. rewrite length_app in E. simpl in E. lia.
      * apply app_inv_head in E. injection E as <-. simpl.
        destruct (includes _ _ || includes _ _)%bool; [now left | now right].
    + apply (f_equal (@length _)) in E. rewrite length_app in E. simpl in E. lia.
Qed.

(** Every match of the generic pattern consumes at least one unit, so the
    [exec] loop of the fallback pass advances [lastIndex] at every turn. *)
Lemma serverPattern_match_nonempty (i : nat) (s : str) (m : rmatched) :
  matchAt serverPattern i s = Some m -> 0 < matchLength m.
Proof.
  unfold matchAt. intro H.
  apply (rmatch_first serverPattern (p := chr_eqb 42%N) eq_refl) in H
    as [x [s0 [-> [_ [j [s' [c' [H [u [_ Hj]]]]]]]]]].
  injection H as <-. cbn [matchLength]. lia.
Qed.

(** A line is a bullet line only if it starts with a bullet. *)
Lemma bulletLineRe_after_start (s : str) (i : nat) :
  searchFrom bulletLineRe (S i) s = None.
Proof. revert i. induction s as [|x s IH]; intro i; simpl; [reflexivity | apply IH]. Qed.

Lemma bulletLineRe_needs_bullet (x : char) (line : str) :
  isBullet x = false -> search bulletLineRe (x :: line) = None.
Proof.
  intro H. unfold search. cbn [searchFrom].
  replace (matchAt bulletLineRe 0 (x :: line)) with (@None rmatched).
  - apply bulletLineRe_after_start.
  - unfold matchAt, bulletLineRe. cbn [rmatch Nat.eqb]. now rewrite H.
Qed.

Lemma noBulletLine_spec (content line : str) :
  noBulletLine content = true -> In line (split 10%N content) ->
  search bulletLineRe line = None.
Proof.
  unfold noBulletLine. rewrite forallb_forall. intros H Hin.
  specialize (H line Hin). now destruct (search bulletLineRe line).
Qed.

(** The section headings start with [#], under the [i] flag too. *)
Lemma heading_first (x : char) :
  chr_eqb (asciiUpper x) (asciiUpper 35%N) = true -> x = 35%N.
Proof.
  unfold chr_eqb, asciiUpper.
  change (between 97%N 122%N 35%N) with false. cbv iota.
  destruct (between 97%N 122%N x) eqn:E; intro H; apply N.eqb_eq in H; [|exact H].
  unfold between in E. apply andb_true_iff in E as [E1 E2].
  apply N.leb_le in E1, E2. lia.
Qed.

(** In a document without bullet lines a section pass collects nothing. *)
Lemma sectionPass_without_bullets (sectionRe : regex)
    (entry : list Server -> rmatched -> Server) (content : str) (servers : list Server) :
  firstClass sectionRe = Some (fun c => chr_eqb (asciiUpper c) (asciiUpper 35%N)) ->
  noBulletLine content = true ->
  sectionPass sectionRe entry content servers = servers.
Proof.
  intros Hfirst Hno. unfold sectionPass.
  destruct (search sectionRe content) as [sec|] eqn:Hsec; [|reflexivity].
  unfold search in Hsec.
  destruct (searchFrom_piece _ _ _ Hsec) as [pre [post Hcontent]].
  destruct (searchFrom_first _ _ Hfirst _ Hsec) as [x [rest [Hm Hx]]].
  apply heading_first in Hx. subst x.
  apply fold_left_inv; [reflexivity|].
  intros acc line -> Hline. unfold sectionStep.
  replace (search bulletLineRe line) with (@None rmatched); [reflexivity|].
  symmetry. rewrite Hm in Hline.
  destruct (@split_first 10%N 35%N rest eq_refl) as [h [tl0 Es]].
  rewrite Es in Hline. destruct Hline as [<- | Hline].
  - now apply bulletLineRe_needs_bullet.
  - assert (In line (tl (split 10%N (matched sec)))) as Htl by (rewrite Hm, Es; exact Hline).
    destruct (@split_piece 10%N pre (matched sec) post line Htl) as [L [t [HL ->]]].
    rewrite <- Hcontent in HL. apply (@noBulletLine_spec content _ Hno) in HL.
    destruct (search bulletLineRe line) eqn:E; [|reflexivity].
    exfalso. apply (searchFrom_extend t bulletLineRe line eq_refl 0); [|exact HL].
    unfold search in E. rewrite E. discriminate.
Qed.

(** A document without bullet lines and without a match of the generic
    pattern yields no entry. *)
Lemma parseREADMEContent_nothing (content : str) :
  noBulletLine content = true -> noGenericMatch content = true ->
  parseREADMEContent toLowerCase random content = [].
Proof.
  intros Hb Hg. rewrite parseREADMEContent_passes. unfold sectionEntries.
  rewrite !sectionPass_without_bullets by (reflexivity || exact Hb).
  unfold fallbackPass. unfold noGenericMatch in Hg.
  destruct (execAll serverPattern content); [reflexivity | discriminate].
Qed.

End ExtractorFacts.

Lemma scenario_yields_three_entries_witness :
  map (fun e => (id e, category e)) (parseREADMEContent asciiToLowerCase zeroDraws scenarioDoc)
  = [ (lit "mcp-filesystem", lit "official");
      (lit "slack-bot", lit "community");
      (lit "filesystem", lit "community") ].
Proof.
  apply (scenario_yields_three_entries asciiToLowerCase zeroDraws); reflexivity.
Defined.

(** *** The reference pass *)

Section ReferenceFacts.

Variable toLowerCase : str -> str.
Variable random : nat -> Z -> Z.

(** Lower-casing leaves the lower-case ASCII prefix [mcp-] in place and
    treats the rest as it does alone. *)
Hypothesis toLowerCase_mcp :
  forall s, toLowerCase (lit "mcp-" ++ s) = lit "mcp-" ++ toLowerCase s.

(** Where each entry of a section pass comes from: a line of the section
    that the bullet pattern matches. *)
Lemma sectionPass_origin (sectionRe : regex) (entry : list Server -> rmatched -> Server)
    (content : str) (e : Server) :
  In e (sectionPass sectionRe entry content []) ->
  exists sec line m acc,
    search sectionRe content = Some sec /\
    In line (split 10%N (matched sec)) /\
    search bulletLineRe line = Some m /\
    e = entry acc m.
Proof.
  unfold sectionPass. destruct (search sectionRe content) as [sec|]; [|intros []].
  revert e.
  apply (fold_left_inv (fun servers => forall e, In e servers ->
           exists sec' line m acc, Some sec = Some sec' /\
             In line (split 10%N (matched sec')) /\
             search bulletLineRe line = Some m /\ e = entry acc m)).
  - intros e [].
  - intros servers line IH Hline e He. unfold sectionStep in He.
    destruct (search bulletLineRe line) as [m|] eqn:Hm; [|now apply IH].
    apply in_app_iff in He as [He | [<- | []]]; [now apply IH|].
    now exists sec, line, m, servers.
Qed.

(** No text is its own reference id. *)
Lemma referenceId_differs (bold : str) : referenceId toLowerCase bold <> bold.
Proof.
  induction bold as [bold IH] using (induction_ltof1 _ (@length char)).
  unfold ltof in IH. intro E.
  set (rest := replaceRuns isSpace (lit "-") (toLowerCase bold)) in *.
  assert (bold = lit "mcp-" ++ rest) as Hbold by (symmetry; exact E).
  assert (referenceId toLowerCase rest = rest) as Hrest.
  { unfold referenceId. unfold rest at 2. rewrite Hbold at 1.
    rewrite toLowerCase_mcp. reflexivity. }
  apply (IH rest); [|exact Hrest].
  rewrite Hbold, length_app. simpl. lia.
Qed.

(** C9.  Every entry of the reference pass comes from a bullet line of the
    reference section and has the same text as name and as id: [mcp-]
    followed by the bold text of the bullet, lower-cased, each run of white
    space replaced by a hyphen.  The bold text itself is then neither the
    name nor the id of the entry, and when it differs from its lower-cased,
    hyphenated form (as [Filesystem] does) the lookup of the details handler
    by the bold text does not match the entry at all. *)
Theorem reference_entry_name_is_its_id (content : str) (e : Server) :
  In e (referenceEntries toLowerCase random content) ->
  name e = id e /\
  exists sec line m,
    search referenceSectionRe content = Some sec /\
    In line (split 10%N (matched sec)) /\
    search bulletLineRe line = Some m /\
    id e = referenceId toLowerCase (group 1 m) /\
    name e <> group 1 m /\
    str_eqb (name e) (group 1 m) = false /\
    str_eqb (id e) (group 1 m) = false /\
    (replaceRuns isSpace (lit "-") (toLowerCase (group 1 m)) <> group 1 m ->
     detailsMatch (group 1 m) e = false).
Proof.
  intro He. apply sectionPass_origin in He as [sec [line [m [acc [Hsec [Hline [Hm ->]]]]]]].
  split; [reflexivity|]. exists sec, line, m.
  assert (referenceId toLowerCase (group 1 m) <> group 1 m) as Hne
    by apply referenceId_differs.
  repeat split; auto.
  - now apply str_eqb_neq.
  - now apply str_eqb_neq.
  - intro Hnorm. unfold detailsMatch.
    change (id (referenceEntry toLowerCase random acc m))
      with (referenceId toLowerCase (group 1 m)).
    change (name (referenceEntry toLowerCase random acc m))
      with (referenceId toLowerCase (group 1 m)).
    assert (str_eqb (referenceId toLowerCase (group 1 m)) (lit "mcp-" ++ group 1 m) = false)
      as Hpre.
    { apply str_eqb_neq. unfold referenceId. intro E.
      apply app_inv_head in E. contradiction. }
    apply str_eqb_neq in Hne. now rewrite Hne, Hpre.
Qed.

End ReferenceFacts.

(** *** The freshness cache *)

Section CacheFacts.

Variable toLowerCase : str -> str.

Lemma getServersData_hit (env : Env) (st : State) (cached : list Server) :
  cachedServers st = Some cached ->
  (now env - lastFetchTime st < CACHE_DURATION)%Z ->
  getServersData toLowerCase env st = (Ok cached, st).
Proof.
  intros Hc Hfresh. unfold getServersData, cacheIsFresh. rewrite Hc.
  apply Z.ltb_lt in Hfresh. now rewrite Hfresh.
Qed.

(** What [getServersData] does when it has to fetch. *)
Lemma getServersData_miss (env : Env) (st : State) :
  cacheIsFresh env st = false ->
  getServersData toLowerCase env st =
  match upstream env with
  | UpstreamError message => (Throw message, afterFetch st)
  | UpstreamReadme content =>
      let servers := parseREADMEContent toLowerCase (random env) content in
      if 0 <? length servers then
        (Ok servers, {| cachedServers := Some servers;
                        lastFetchTime := now env;
                        fetchCount := S (fetchCount st) |})
      else (Throw unableToFetch, afterFetch st)
  end.
Proof.
  intro Hstale. unfold getServersData. rewrite Hstale.
  unfold bind, fetchRealMCPServers, afterFetch.
  destruct (upstream env) as [message|content]; [reflexivity|].
  simpl. destruct (0 <? length _); reflexivity.
Qed.

Lemma cacheIsFresh_spec (env : Env) (st : State) :
  cacheIsFresh env st = true <->
  exists cached, cachedServers st = Some cached /\
                 (now env - lastFetchTime st < CACHE_DURATION)%Z.
Proof.
  unfold cacheIsFresh. destruct (cachedServers st) as [cached|].
  - rewrite Z.ltb_lt. split.
    + intro H. now exists cached.
    + now intros [_ [_ H]].
  - split; [discriminate | now intros [c [H _]]].
Qed.

(** A failing [getServersData] leaves the cache as it was. *)
Lemma getServersData_throw_sameCache (env : Env) (st st' : State) (message : str) :
  getServersData toLowerCase env st = (Throw message, st') -> sameCache st st'.
Proof.
  destruct (cacheIsFresh env st) eqn:Hf.
  - apply cacheIsFresh_spec in Hf as [cached [Hc Hlt]].
    rewrite (getServersData_hit env st Hc Hlt). discriminate.
  - rewrite (getServersData_miss env st Hf).
    destruct (upstream env) as [msg|content].
    + intro H. injection H as _ <-. now split.
    + simpl. destruct (0 <? length _); [discriminate|].
      intro H. injection H as _ <-. now split.
Qed.

(** A successful [getServersData] returns a non-empty snapshot that is either
    the cached one or a freshly extracted one, and the cache then holds it. *)
Lemma getServersData_ok (env : Env) (st st' : State) (servers : list Server) :
  getServersData toLowerCase env st = (Ok servers, st') ->
  cachedServers st' = Some servers /\
  ((cachedServers st = Some servers /\ st' = st) \/
   (servers <> [] /\ fetchCount st' = S (fetchCount st) /\
    lastFetchTime st' = now env /\
    exists content, upstream env = UpstreamReadme content /\
      servers = parseREADMEContent toLowerCase (random env) content)).
Proof.
  destruct (cacheIsFresh env st) eqn:Hf.
  - apply cacheIsFresh_spec in Hf as [cached [Hc Hlt]].
    rewrite (getServersData_hit env st Hc Hlt).
    intro H. injection H as <- <-. split; [exact Hc | now left].
  - rewrite (getServersData_miss env st Hf).
    destruct (upstream env) as [msg|content]; [discriminate|].
    simpl. destruct (0 <? length _) eqn:Hlen; [|discriminate].
    intro H. injection H as <- <-. simpl. split; [reflexivity|]. right.
    repeat split.
    + intro E. rewrite E in Hlen. discriminate.
    + now exists content.
Qed.

Lemma getServersData_inv (env : Env) (st : State) :
  cacheInv toLowerCase st -> cacheInv toLowerCase (snd (getServersData toLowerCase env st)).
Proof.
  intro Hinv. destruct (getServersData toLowerCase env st) as [[servers|msg] st'] eqn:G; simpl.
  - apply getServersData_ok in G as [Hc [[_ ->] | [Hne [_ [_ [content [_ Hs]]]]]]];
      [exact Hinv|].
    intros servers' Hc'. rewrite Hc in Hc'. injection Hc' as <-.
    split; [exact Hne|]. now exists (random env), content.
  - apply getServersData_throw_sameCache in G as [Hc _].
    intros servers Hs. rewrite Hc in Hs. now apply Hinv.
Qed.

Lemma invalidate_inv (st : State) : cacheInv toLowerCase (snd (invalidate st)).
Proof. intros servers H. discriminate. Qed.

(** The next two lemmas read the state of a handler that ends with [ret]
    after [getServersData]. *)
Lemma bind_ret_state {A B} (m : M A) (f : A -> B) (st : State) :
  snd ((x <- m ;; ret (f x)) st) = snd (m st).
Proof. unfold bind, ret. now destruct (m st) as [[a|e] st']. Qed.

Lemma bind_ret_throws {A B} (m : M A) (f : A -> B) (st st' : State) (message : str) :
  (x <- m ;; ret (f x)) st = (Throw message, st') -> m st = (Throw message, st').
Proof.
  unfold bind, ret. destruct (m st) as [[a|e] st1]; [discriminate|].
  intro H. injection H as -> ->. reflexivity.
Qed.

Lemma handle_state (env : Env) (request : Request) (st : State) :
  snd (handle toLowerCase env request st) = st \/
  snd (handle toLowerCase env request st) = snd (getServersData toLowerCase env st) \/
  (request = registry_refresh_data /\
   snd (handle toLowerCase env request st)
   = snd (getServersData toLowerCase env (snd (invalidate st)))).
Proof.
  destruct request as [query cat limit | [[|c sid]|] | | | name_]; simpl.
  - right; left. apply bind_ret_state.
  - now left.
  - right; left. unfold bind.
    destruct (getServersData toLowerCase env st) as [[servers|e] st1]; [|reflexivity].
    now destruct (findServer _ servers).
  - now left.
  - right; left. apply bind_ret_state.
  - right; right. split; [reflexivity|]. unfold bind at 1. simpl.
    apply bind_ret_state.
  - now left.
Qed.

Lemma callTool_state (env : Env) (request : Request) (st : State) :
  snd (callTool toLowerCase env request st) = snd (handle toLowerCase env request st).
Proof. unfold callTool. now destruct (handle _ _ _ _) as [[c|e] st']. Qed.

Lemma callTool_isError (env : Env) (request : Request) (st : State) :
  isError (fst (callTool toLowerCase env request st)) = true <->
  exists message st', handle toLowerCase env request st = (Throw message, st').
Proof.
  unfold callTool. destruct (handle _ _ _ _) as [[c|e] st']; simpl; split.
  - discriminate.
  - now intros [m [s H]].
  - intros _. now exists e, st'.
  - reflexivity.
Qed.

Lemma reachable_inv (st : State) : reachable toLowerCase st -> cacheInv toLowerCase st.
Proof.
  induction 1 as [|env request st _ IH].
  - intros servers H. discriminate.
  - rewrite callTool_state.
    destruct (handle_state env request st) as [-> | [-> | [_ ->]]].
    + exact IH.
    + now apply getServersData_inv.
    + apply getServersData_inv, invalidate_inv.
Qed.

(** A failing handler other than the refresh leaves the cache as it was. *)
Lemma handle_throw_sameCache (env : Env) (request : Request) (st st' : State) (message : str) :
  request <> registry_refresh_data ->
  handle toLowerCase env request st = (Throw message, st') -> sameCache st st'.
Proof.
  intros Hreq.
  destruct request as [query cat limit | [[|c sid]|] | | | name_]; simpl.
  - intro H. apply bind_ret_throws in H. now apply getServersData_throw_sameCache in H.
  - intro H. injection H as _ <-. now split.
  - unfold bind.
    destruct (getServersData toLowerCase env st) as [[servers|e] st1] eqn:G.
    + destruct (findServer _ servers); discriminate.
    + intro H. injection H as _ <-. now apply getServersData_throw_sameCache in G.
  - intro H. injection H as _ <-. now split.
  - intro H. apply bind_ret_throws in H. now apply getServersData_throw_sameCache in H.
  - contradiction.
  - intro H. injection H as _ <-. now split.
Qed.

(** C3, as amended.  A failure of the fetch or of the extraction inside
    [getServersData] leaves the cached snapshot and its timestamp as they
    were, and so does every failing tool call other than the refresh.  The
    refresh handler clears the snapshot and resets the timestamp before it
    fetches: after a failed refresh the cache is empty. *)
Theorem failure_keeps_cache_except_refresh :
  (forall env st message st',
      getServersData toLowerCase env st = (Throw message, st') -> sameCache st st') /\
  (forall env request st,
      request <> registry_refresh_data ->
      isError (fst (callTool toLowerCase env request st)) = true ->
      sameCache st (snd (callTool toLowerCase env request st))) /\
  (forall env st,
      isError (fst (callTool toLowerCase env registry_refresh_data st)) = true ->
      cachedServers (snd (callTool toLowerCase env registry_refresh_data st)) = None /\
      lastFetchTime (snd (callTool toLowerCase env registry_refresh_data st)) = 0%Z).
Proof.
  split; [|split].
  - intros env st message st'. apply getServersData_throw_sameCache.
  - intros env request st Hreq Herr.
    apply callTool_isError in Herr as [message [st' H]].
    rewrite callTool_state, H. simpl. now apply handle_throw_sameCache in H.
  - intros env st Herr.
    apply callTool_isError in Herr as [message [st' H]].
    rewrite callTool_state, H. simpl.
    simpl in H. unfold bind at 1 in H. simpl in H.
    apply bind_ret_throws in H.
    apply getServersData_throw_sameCache in H as [Hc Ht]. now split.
Qed.

(** C4, as amended.  A document in which no line is a bullet line and the
    generic pattern [**name** - description] has no match yields no entry;
    when [getServersData] fetches a document that yields no entry, it throws
    the unable-to-fetch error and leaves the snapshot and its timestamp as
    they were; and in no state the server reaches does [getServersData]
    return an empty snapshot. *)
Theorem nothing_extracted_is_an_error :
  (forall random_ content,
      noBulletLine content = true -> noGenericMatch content = true ->
      parseREADMEContent toLowerCase random_ content = []) /\
  (forall env st content,
      upstream env = UpstreamReadme content ->
      parseREADMEContent toLowerCase (random env) content = [] ->
      cacheIsFresh env st = false ->
      getServersData toLowerCase env st = (Throw unableToFetch, afterFetch st) /\
      sameCache st (afterFetch st)) /\
  (forall env st servers st',
      reachable toLowerCase st ->
      getServersData toLowerCase env st = (Ok servers, st') ->
      servers <> []).
Proof.
  split; [|split].
  - intros random_ content. apply parseREADMEContent_nothing.
  - intros env st content Hup Hnone Hstale.
    rewrite (getServersData_miss env st Hstale), Hup. simpl. rewrite Hnone. simpl.
    split; [reflexivity | now split].
  - intros env st servers st' Hreach Hget.
    apply getServersData_ok in Hget as [_ [[Hc _] | [Hne _]]]; [|exact Hne].
    now apply (reachable_inv Hreach) in Hc.
Qed.

(** C5.  A snapshot younger than five minutes is returned as it is, with no
    fetch and no change of state; two calls of [getServersData], the first
    one fetching and the second less than five minutes later, perform one
    fetch in all and return the same snapshot; the refresh handler performs
    a fetch whatever the state. *)
Theorem fresh_snapshot_is_reused :
  (forall env st cached,
      cachedServers st = Some cached ->
      (now env - lastFetchTime st < CACHE_DURATION)%Z ->
      getServersData toLowerCase env st = (Ok cached, st)) /\
  (forall env1 env2 st st1 servers,
      cacheIsFresh env1 st = false ->
      getServersData toLowerCase env1 st = (Ok servers, st1) ->
      (now env2 - now env1 < CACHE_DURATION)%Z ->
      getServersData toLowerCase env2 st1 = (Ok servers, st1) /\
      fetchCount st1 = S (fetchCount st)) /\
  (forall env st,
      fetchCount (snd (callTool toLowerCase env registry_refresh_data st))
      = S (fetchCount st)).
Proof.
  split; [|split].
  - intros env st cached. apply getServersData_hit.
  - intros env1 env2 st st1 servers Hstale Hget Hwin.
    rewrite (getServersData_miss env1 st Hstale) in Hget.
    destruct (upstream env1) as [msg|content]; [discriminate|].
    simpl in Hget. destruct (0 <? length _); [|discriminate].
    injection Hget as <- <-. split; [|reflexivity].
    apply getServersData_hit; [reflexivity | exact Hwin].
  - intros env st. rewrite callTool_state. simpl. unfold bind at 1. simpl.
    rewrite bind_ret_state.
    set (st0 := {| cachedServers := None; lastFetchTime := 0; fetchCount := fetchCount st |}).
    assert (cacheIsFresh env st0 = false) as Hf by reflexivity.
    rewrite (getServersData_miss env st0 Hf).
    destruct (upstream env) as [msg|content]; [reflexivity|].
    simpl. now destruct (0 <? length _).
Qed.

End CacheFacts.

(** *** The query handlers *)

Section QueryFacts.

Variable toLowerCase : str -> str.

Lemma filter_filter {A} (f g : A -> bool) (l : list A) :
  filter g (filter f l) = filter (fun x => (f x && g x)%bool) l.
Proof.
  induction l as [|x l IH]; simpl; [reflexivity|].
  destruct (f x); simpl; [|exact IH].
  destruct (g x); now rewrite IH.
Qed.

Lemma filter_all {A} (l : list A) : filter (fun _ => true) l = l.
Proof. induction l as [|x l IH]; simpl; congruence. Qed.

Lemma searchServers_filters (query category_ : option str) (limit : option Z)
    (servers : list Server) :
  searchServers toLowerCase query category_ limit servers
  = slice0 (limitOrDefault limit)
      (filter (fun s => (specQueryHolds toLowerCase (nonEmpty query) s
                         && specCategoryHolds toLowerCase (nonEmpty category_) s)%bool)
              servers).
Proof.
  unfold searchServers. f_equal.
  destruct query as [[|x q]|], category_ as [[|y c]|];
    cbn [nonEmpty truthy specQueryHolds specCategoryHolds andb];
    rewrite ?filter_filter;
    first [ symmetry; apply filter_all
          | apply filter_ext; intro s; rewrite ?andb_true_r; reflexivity ].
Qed.

(** C6, as amended.  The search returns the entries whose name, description
    or some tag contains the query ignoring case and whose category is the
    given one ignoring case, both conditions at once, a condition applying
    when its argument is given and is not the empty string (an empty query
    or category filters nothing); for a limit that is not negative (20 when
    absent) the result is the first [limit] of them in snapshot order, and a
    negative limit [-k] drops the last [k] of them instead. *)
Theorem search_returns_filtered_prefix (query category_ : option str) (limit : option Z)
    (servers : list Server) :
  ((0 <= limitOrDefault limit)%Z ->
   searchServers toLowerCase query category_ limit servers
   = specSearch toLowerCase (nonEmpty query) (nonEmpty category_)
       (Z.to_nat (limitOrDefault limit)) servers) /\
  ((limitOrDefault limit < 0)%Z ->
   let all := specSearch toLowerCase (nonEmpty query) (nonEmpty category_)
                (length servers) servers in
   searchServers toLowerCase query category_ limit servers
   = firstn (length all - Z.to_nat (- limitOrDefault limit)) all).
Proof.
  rewrite searchServers_filters. unfold specSearch, slice0. split; intro H.
  - apply Z.ltb_ge in H. now rewrite H.
  - apply Z.ltb_lt in H. rewrite H. simpl.
    rewrite (firstn_all2 (n := length servers)); [reflexivity|].
    apply filter_length_le.
Qed.

(** C10.  With the limit 0 the search returns no entry; the default 20
    stands in for an absent limit only: on the scenario snapshot the search
    without a limit returns the three entries and with the limit 0 none. *)
Theorem zero_limit_returns_nothing :
  (forall query category_ servers,
      searchServers toLowerCase query category_ (Some 0%Z) servers = []) /\
  (forall query category_ servers,
      searchServers toLowerCase query category_ None servers
      = searchServers toLowerCase query category_ (Some 20%Z) servers) /\
  searchServers toLowerCase None None (Some 0%Z) scenarioSnapshot = [] /\
  searchServers toLowerCase None None None scenarioSnapshot = scenarioSnapshot /\
  length scenarioSnapshot = 3.
Proof.
  split; [|split; [|split; [|split]]].
  - intros. now rewrite searchServers_filters.
  - reflexivity.
  - reflexivity.
  - vm_compute. reflexivity.
  - vm_compute. reflexivity.
Qed.

Lemma detailsMatch_spec (serverId : str) (s : Server) :
  detailsMatch serverId s = true <->
  id s = serverId \/ name s = serverId \/
  id s = lit "mcp-" ++ serverId \/ name s = lit "mcp-" ++ serverId.
Proof.
  unfold detailsMatch. rewrite !orb_true_iff, !str_eqb_eq. tauto.
Qed.

(** C7, as amended.  For a [serverId] that is not the empty string and a
    snapshot obtained from [getServersData], the details handler answers
    with the first entry whose id or name is [serverId] or [serverId]
    prefixed with [mcp-]; when no entry is such, it answers with the
    not-found text and [isError] is not set.  (An empty [serverId] is
    rejected as missing, with [isError] set.) *)
Theorem details_lookup_tolerates_prefix (env : Env) (st st' : State)
    (serverId : str) (servers : list Server) :
  serverId <> [] ->
  getServersData toLowerCase env st = (Ok servers, st') ->
  match findServer serverId servers with
  | Some e =>
      callTool toLowerCase env (registry_get_server_details (Some serverId)) st
        = ({| content := ServerDetails e; isError := false |}, st') /\
      In e servers /\
      (id e = serverId \/ name e = serverId \/
       id e = lit "mcp-" ++ serverId \/ name e = lit "mcp-" ++ serverId)
  | None =>
      callTool toLowerCase env (registry_get_server_details (Some serverId)) st
        = ({| content := ServerNotFound serverId; isError := false |}, st') /\
      (forall e, In e servers ->
         ~ (id e = serverId \/ name e = serverId \/
            id e = lit "mcp-" ++ serverId \/ name e = lit "mcp-" ++ serverId))
  end.
Proof.
  intros Hne Hget.
  assert (forall c, callTool toLowerCase env (registry_get_server_details (Some serverId)) st
          = ({| content := c; isError := false |}, st') <->
          match findServer serverId servers with
          | Some e => c = ServerDetails e
          | None => c = ServerNotFound serverId
          end) as Hcall.
  { intro c. unfold callTool, handle.
    destruct serverId as [|x sid]; [contradiction|]. simpl.
    unfold bind. rewrite Hget.
    destruct (findServer (x :: sid) servers); unfold ret; split; intro H;
      try (injection H as <-; reflexivity); now subst. }
  destruct (findServer serverId servers) as [e|] eqn:Hfind.
  - split; [now apply Hcall|].
    apply find_some in Hfind as [Hin Hm]. split; [exact Hin|].
    now apply detailsMatch_spec.
  - split; [now apply Hcall|].
    intros e Hin Hm. apply detailsMatch_spec in Hm.
    apply (find_none _ _ Hfind) in Hin. congruence.
Qed.

End QueryFacts.

(** *** The category listing *)

Section CategoryFacts.

Lemma lookup_None {V} (key : str) (o : list (str * V)) :
  lookup key o = None <-> ~ In key (map fst o).
Proof.
  induction o as [|[k v] o IH]; simpl; [tauto|].
  destruct (str_eqb k key) eqn:E.
  - apply str_eqb_eq in E. split; [discriminate | tauto].
  - apply str_eqb_neq in E. tauto.
Qed.

Lemma increment_keys (key : str) (o : list (str * CategoryInfo)) :
  map fst (increment key o) = map fst o.
Proof.
  induction o as [|[k v] o IH]; simpl; [reflexivity|].
  destruct (str_eqb k key); simpl; congruence.
Qed.

Lemma increment_total (key : str) (o : list (str * CategoryInfo)) :
  lookup key o <> None -> totalCount (increment key o) = S (totalCount o).
Proof.
  unfold totalCount. induction o as [|[k v] o IH]; simpl; [congruence|].
  destruct (str_eqb k key); simpl; [reflexivity|].
  intro H. rewrite (IH H). lia.
Qed.

Lemma increment_descriptions (key : str) (o : list (str * CategoryInfo)) :
  Forall descriptionOk o -> Forall descriptionOk (increment key o).
Proof.
  induction 1 as [|[k v] o Hx Ho IH]; simpl; [constructor|].
  destruct (str_eqb k key); constructor; auto.
Qed.

(** The loop invariant of the categories handler, for entries whose category
    is neither empty nor an inherited property name. *)
Lemma listCategories_from (servers : list Server) (acc : list (str * CategoryInfo)) :
  Forall (fun e => isEmpty (category e) = false /\ inherited (category e) = false) servers ->
  NoDup (map fst acc) -> Forall descriptionOk acc ->
  let out := fold_left categoryStep servers acc in
  totalCount out = totalCount acc + length servers /\
  NoDup (map fst out) /\
  Forall descriptionOk out /\
  (forall k, In k (map fst out) <-> In k (map fst acc) \/ In k (map category servers)).
Proof.
  intro Hs. revert acc. induction Hs as [|e servers [He Hi] _ IH]; intros acc Hnd Hd; simpl.
  - repeat split; auto; tauto.
  - assert (categoryStep acc e =
            match lookup (category e) acc with
            | Some _ => increment (category e) acc
            | None => acc ++ [(category e,
                               {| count := 1;
                                  description_ := getCategoryDescription (category e) |})]
            end) as Estep.
    { unfold categoryStep. rewrite He, Hi. reflexivity. }
    destruct (lookup (category e) acc) as [v|] eqn:Hl.
    + rewrite Estep.
      destruct (IH (increment (category e) acc)) as [Ht [Hn [Hdesc Hk]]].
      * now rewrite increment_keys.
      * now apply increment_descriptions.
      * rewrite increment_total in Ht by congruence.
        rewrite increment_keys in Hk.
        split; [lia|]. split; [exact Hn|]. split; [exact Hdesc|].
        intro k. rewrite Hk. split; [tauto|].
        intros [H | [<- | H]]; auto.
        left. destruct (in_dec (list_eq_dec N.eq_dec) (category e) (map fst acc)) as [Y|Y];
          [exact Y|]. apply lookup_None in Y. congruence.
    + rewrite Estep. apply lookup_None in Hl.
      destruct (IH (acc ++ [(category e,
                       {| count := 1;
                          description_ := getCategoryDescription (category e) |})]))
        as [Ht [Hn [Hdesc Hk]]].
      * rewrite map_app. simpl. now apply NoDup_snoc.
      * apply Forall_app. split; [exact Hd|]. constructor; [reflexivity | constructor].
      * unfold totalCount in *. rewrite map_app, list_sum_app in Ht. simpl in Ht.
        split; [lia|]. split; [exact Hn|]. split; [exact Hdesc|].
        intro k. rewrite Hk, map_app, in_app_iff. simpl. tauto.
Qed.

Lemma occurrences_once (key : str) (o : list (str * CategoryInfo)) :
  NoDup (map fst o) -> In key (map fst o) -> occurrences key o = 1.
Proof.
  unfold occurrences. induction o as [|[k v] o IH]; simpl; [tauto|].
  intros Hnd Hin. apply NoDup_cons_iff in Hnd as [Hk Hnd].
  destruct (str_eqb k key) eqn:E; simpl.
  - apply str_eqb_eq in E. subst k. f_equal.
    assert (forall o', ~ In key (map fst o') ->
            filter (fun entry : str * CategoryInfo => str_eqb (fst entry) key) o' = []) as Z.
    { induction o' as [|[k' v'] o' IH']; simpl; [reflexivity|]. intro H.
      destruct (str_eqb k' key) eqn:E'; [apply str_eqb_eq in E'; tauto|].
      apply IH'. tauto. }
    now rewrite Z.
  - apply str_eqb_neq in E. apply IH; [exact Hnd | tauto].
Qed.

Lemma extractedCategory_ordinary (c : str) :
  extractedCategory c -> isEmpty c = false /\ inherited c = false.
Proof. intros [-> | ->]; split; reflexivity. Qed.

Lemma getCategoryDescription_table (key : str) :
  (exists d, In (key, d) descriptions /\ getCategoryDescription key = d) \/
  ((forall d, ~ In (key, d) descriptions) /\ getCategoryDescription key = genericDescription).
Proof.
  unfold getCategoryDescription.
  assert (forall (o : list (str * str)),
           (exists d, In (key, d) o /\ lookup key o = Some d) \/
           ((forall d, ~ In (key, d) o) /\ lookup key o = None)) as H.
  { induction o as [|[k v] o IH]; simpl.
    - right. split; [tauto | reflexivity].
    - destruct (str_eqb k key) eqn:E.
      + apply str_eqb_eq in E. subst k. left. exists v. split; [now left | reflexivity].
      + apply str_eqb_neq in E. destruct IH as [[d [Hin Hl]] | [Hno Hl]].
        * left. exists d. split; [now right | exact Hl].
        * right. split; [|exact Hl]. intros d [Hd | Hd]; [congruence | now apply (Hno d)]. }
  destruct (H descriptions) as [[d [Hin ->]] | [Hno ->]].
  - left. now exists d.
  - right. now split.
Qed.

(** C8.  Every snapshot the extractor produces has entries of category
    official or community only; and for every snapshot whose categories are
    neither empty nor names inherited from [Object.prototype], the counts of
    the category listing add up to the number of entries, the category of
    every entry is listed exactly once, every listed category is the
    category of some entry, and the description listed with a category is
    the one of the static table, or the generic description when the table
    has none. *)
Theorem categories_cover_the_snapshot :
  (forall toLowerCase random content,
      Forall (fun e => extractedCategory (category e) /\
                       isEmpty (category e) = false /\ inherited (category e) = false)
        (parseREADMEContent toLowerCase random content)) /\
  (forall servers,
      Forall (fun e => isEmpty (category e) = false /\ inherited (category e) = false)
        servers ->
      let categories := listCategories servers in
      totalCount categories = length servers /\
      (forall e, In e servers -> occurrences (category e) categories = 1) /\
      (forall key info, In (key, info) categories ->
         (exists e, In e servers /\ category e = key) /\
         ((In (key, description_ info) descriptions) \/
          ((forall d, ~ In (key, d) descriptions) /\
           description_ info = genericDescription)))).
Proof.
  split.
  - intros toLowerCase random content.
    eapply Forall_impl; [|apply parseREADMEContent_categories].
    intros e He. split; [exact He | now apply extractedCategory_ordinary].
  - intros servers Hord categories.
    destruct (listCategories_from (acc := []) Hord (NoDup_nil _) (Forall_nil _))
      as [Ht [Hn [Hd Hk]]].
    fold (listCategories servers) in Ht, Hn, Hd, Hk. fold categories in Ht, Hn, Hd, Hk.
    change (totalCount []) with 0 in Ht. simpl in Ht.
    split; [exact Ht|]. split.
    + intros e He. apply occurrences_once; [exact Hn|].
      apply Hk. right. now apply in_map.
    + intros key info Hin. split.
      * assert (In key (map fst categories)) as Hkey
          by (apply in_map_iff; now exists (key, info)).
        apply Hk in Hkey as [[] | Hkey].
        apply in_map_iff in Hkey as [e [He Hin']]. now exists e.
      * rewrite Forall_forall in Hd. specialize (Hd _ Hin). unfold descriptionOk in Hd.
        simpl in Hd. rewrite Hd.
        destruct (getCategoryDescription_table key) as [[d [Hd1 ->]] | [Hno ->]]; auto.
Qed.

End CategoryFacts.

(** *** Instances on the scenario document *)

Lemma asciiToLowerCase_mcp (s : str) :
  asciiToLowerCase (lit "mcp-" ++ s) = lit "mcp-" ++ asciiToLowerCase s.
Proof. reflexivity. Qed.

Lemma reference_entry_name_is_its_id_witness :
  name filesystemEntry = id filesystemEntry /\
  exists sec line m,
    search referenceSectionRe scenarioDoc = Some sec /\
    In line (split 10%N (matched sec)) /\
    search bulletLineRe line = Some m /\
    id filesystemEntry = referenceId asciiToLowerCase (group 1 m) /\
    name filesystemEntry <> group 1 m /\
    str_eqb (name filesystemEntry) (group 1 m) = false /\
    str_eqb (id filesystemEntry) (group 1 m) = false /\
    (replaceRuns isSpace (lit "-") (asciiToLowerCase (group 1 m)) <> group 1 m ->
     detailsMatch (group 1 m) filesystemEntry = false).
Proof.
  apply (reference_entry_name_is_its_id asciiToLowerCase zeroDraws asciiToLowerCase_mcp
           scenarioDoc filesystemEntry).
  vm_compute. left. reflexivity.
Defined.

(** The lookup by the display name finds the entry of the fallback pass,
    not the reference entry; the lookup by [filesystem] finds the reference
    entry through the prefix. *)
Lemma scenario_lookups :
  option_map id (findServer (lit "Filesystem") scenarioSnapshot) = Some (lit "filesystem") /\
  findServer (lit "filesystem") scenarioSnapshot = Some filesystemEntry /\
  findServer (lit "nonexistent-xyz") scenarioSnapshot = None.
Proof. repeat split; vm_compute; reflexivity. Qed.

(** C3 (counterexample).  A refresh whose fetch fails ends with [isError]
    set and with the snapshot gone, although a snapshot was held before. *)
Lemma failed_refresh_clears_cache :
  heldState = snd (callTool asciiToLowerCase (scenarioEnv 1000) registry_list_categories
                     initialState) /\
  isError (fst (callTool asciiToLowerCase downEnv registry_refresh_data heldState)) = true /\
  cachedServers heldState = Some scenarioSnapshot /\
  cachedServers (snd (callTool asciiToLowerCase downEnv registry_refresh_data heldState)) = None /\
  ~ sameCache heldState (snd (callTool asciiToLowerCase downEnv registry_refresh_data heldState)).
Proof.
  split; [vm_compute; reflexivity|].
  split; [vm_compute; reflexivity|]. split; [reflexivity|]. split; [vm_compute; reflexivity|].
  intros [Hc _]. vm_compute in Hc. discriminate.
Qed.

Lemma failure_keeps_cache_except_refresh_witness :
  sameCache heldState
    (snd (callTool asciiToLowerCase downEnv (registry_search_servers None None None) heldState)).
Proof.
  apply (proj1 (proj2 (failure_keeps_cache_except_refresh asciiToLowerCase))).
  - discriminate.
  - vm_compute. reflexivity.
Defined.

Lemma fresh_snapshot_is_reused_witness :
  getServersData asciiToLowerCase (scenarioEnv 299999) scenarioState
    = (Ok scenarioSnapshot, scenarioState) /\
  fetchCount scenarioState = S (fetchCount initialState).
Proof.
  apply (proj1 (proj2 (fresh_snapshot_is_reused asciiToLowerCase))
           (scenarioEnv 0) (scenarioEnv 299999) initialState scenarioState scenarioSnapshot).
  - reflexivity.
  - vm_compute. reflexivity.
  - reflexivity.
Defined.

Lemma categories_cover_the_snapshot_witness :
  totalCount (listCategories scenarioSnapshot) = length scenarioSnapshot /\
  map (fun entry => (fst entry, count (snd entry))) (listCategories scenarioSnapshot)
    = [(lit "official", 1); (lit "community", 2)] /\
  (forall e, In e scenarioSnapshot ->
     occurrences (category e) (listCategories scenarioSnapshot) = 1).
Proof.
  destruct categories_cover_the_snapshot as [Hparse Hlist].
  destruct (Hlist scenarioSnapshot) as [Htotal [Honce _]].
  - eapply Forall_impl; [|apply (Hparse asciiToLowerCase zeroDraws scenarioDoc)].
    intros e [_ He]. exact He.
  - split; [exact Htotal|]. split; [vm_compute; reflexivity | exact Honce].
Defined.

Lemma zero_limit_returns_nothing_witness :
  searchServers asciiToLowerCase (Some (lit "file")) None (Some 0%Z) scenarioSnapshot = [].
Proof.
  apply (proj1 (zero_limit_returns_nothing asciiToLowerCase)).
Defined.

(** C4 (counterexample).  The document [**Foo** - bar] has no bullet line,
    yet the fallback pass extracts an entry from it and [getServersData]
    succeeds and caches it. *)
Lemma bold_text_is_extracted_without_bullet :
  noBulletLine boldDoc = true /\
  map id (parseREADMEContent asciiToLowerCase zeroDraws boldDoc) = [lit "foo"] /\
  parseREADMEContent asciiToLowerCase zeroDraws boldDoc <> [] /\
  fst (getServersData asciiToLowerCase boldEnv initialState)
    = Ok (parseREADMEContent asciiToLowerCase zeroDraws boldDoc).
Proof.
  split; [vm_compute; reflexivity|]. split; [vm_compute; reflexivity|].
  split; [vm_compute; discriminate | vm_compute; reflexivity].
Qed.

Lemma nothing_extracted_is_an_error_witness :
  getServersData asciiToLowerCase plainEnv initialState
    = (Throw unableToFetch, afterFetch initialState) /\
  sameCache initialState (afterFetch initialState).
Proof.
  destruct (nothing_extracted_is_an_error asciiToLowerCase) as [Hnone [Hthrow _]].
  apply (Hthrow plainEnv initialState plainDoc).
  - reflexivity.
  - apply Hnone; vm_compute; reflexivity.
  - reflexivity.
Defined.

(** C6 (counterexample).  With the category given as the empty string, the
    search returns the whole snapshot, while no entry has the empty
    category. *)
Lemma empty_category_filters_nothing :
  searchServers asciiToLowerCase None (Some []) None scenarioSnapshot = scenarioSnapshot /\
  specSearch asciiToLowerCase None (Some []) 20 scenarioSnapshot = [] /\
  searchServers asciiToLowerCase None (Some []) None scenarioSnapshot
    <> specSearch asciiToLowerCase None (Some []) 20 scenarioSnapshot.
Proof.
  split; [vm_compute; reflexivity|]. split; [vm_compute; reflexivity|].
  vm_compute. discriminate.
Qed.

Lemma search_returns_filtered_prefix_witness :
  searchServers asciiToLowerCase (Some (lit "FILE")) (Some (lit "Official")) (Some 5%Z)
    scenarioSnapshot
  = specSearch asciiToLowerCase (Some (lit "FILE")) (Some (lit "Official")) 5 scenarioSnapshot.
Proof.
  apply (proj1 (search_returns_filtered_prefix asciiToLowerCase
                  (Some (lit "FILE")) (Some (lit "Official")) (Some 5%Z) scenarioSnapshot)).
  vm_compute. discriminate.
Defined.

(** C7 (counterexample).  No entry of the scenario snapshot matches the
    empty [serverId], and the details handler answers it with [isError]
    set. *)
Lemma empty_serverId_is_an_error :
  getServersData asciiToLowerCase (scenarioEnv 0) initialState
    = (Ok scenarioSnapshot, scenarioState) /\
  findServer [] scenarioSnapshot = None /\
  callTool asciiToLowerCase (scenarioEnv 0) (registry_get_server_details (Some [])) initialState
    = ({| content := ErrorText (lit "serverId is required"); isError := true |}, initialState).
Proof. repeat split; vm_compute; reflexivity. Qed.

Lemma details_lookup_tolerates_prefix_witness :
  callTool asciiToLowerCase (scenarioEnv 0)
    (registry_get_server_details (Some (lit "filesystem"))) initialState
  = ({| content := ServerDetails filesystemEntry; isError := false |}, scenarioState).
Proof.
  pose proof (@details_lookup_tolerates_prefix asciiToLowerCase (scenarioEnv 0)
                initialState scenarioState (lit "filesystem") scenarioSnapshot) as H.
  assert (findServer (lit "filesystem") scenarioSnapshot = Some filesystemEntry) as E
    by (vm_compute; reflexivity).
  rewrite E in H. destruct H as [H _].
  - discriminate.
  - vm_compute. reflexivity.
  - exact H.
Defined.

(** C2 (code at a document with two bullets of one name).  Two reference
    bullets named [Git] both yield an entry with id [mcp-git]: the result
    holds two entries with the same id, and the second bullet is retained
    beside the first.  The section passes compare no ids; only the fallback
    pass does. *)
Lemma twin_bullets_share_an_id :
  map id (parseREADMEContent asciiToLowerCase zeroDraws twinDoc)
    = [lit "mcp-git"; lit "mcp-git"; lit "git"] /\
  ~ NoDup (map id (parseREADMEContent asciiToLowerCase zeroDraws twinDoc)).
Proof.
  assert (map id (parseREADMEContent asciiToLowerCase zeroDraws twinDoc)
          = [lit "mcp-git"; lit "mcp-git"; lit "git"]) as E by (vm_compute; reflexivity).
  split; [exact E|]. rewrite E. intro H. inversion H as [|x l Hx _]; subst.
  apply Hx. now left.
Qed.

Lemma fallback_pass_drops_colliding_ids_witness :
  NoDup (map id (sectionEntries asciiToLowerCase zeroDraws scenarioDoc)) /\
  NoDup (map id (parseREADMEContent asciiToLowerCase zeroDraws scenarioDoc)).
Proof.
  assert (NoDup (map id (sectionEntries asciiToLowerCase zeroDraws scenarioDoc))) as H
    by (apply distinctIds_NoDup; vm_compute; reflexivity).
  split; [exact H|].
  apply (fallback_pass_drops_colliding_ids asciiToLowerCase zeroDraws scenarioDoc), H.
Defined.

End RegistryFacts.

(* ------------------------------------------------------------------ *)
(** ** Further properties of the extractor, the cache and the handlers *)
(* ------------------------------------------------------------------ *)

Module MoreFacts.
Import JS Regex Registry Semantics Details RegistryFacts.

(** *** The matcher returns matches *)

Lemma starGreedy_sound {A} (p : char -> bool) (s : str) :
  forall i c (k : cont A) a,
    starGreedy p i s c k = Some a ->
    exists u rest, s = u ++ rest /\ forallb p u = true /\
                   k (i + length u) rest c = Some a.
Proof.
  induction s as [|x s IH]; intros i c k a; simpl.
  - intro H. exists [], []. rewrite Nat.add_0_r. auto.
  - assert (k i (x :: s) c = Some a ->
            exists u rest, x :: s = u ++ rest /\ forallb p u = true /\
                           k (i + length u) rest c = Some a) as Hhere.
    { intro H. exists [], (x :: s). rewrite Nat.add_0_r. auto. }
    destruct (p x) eqn:Hx; [|exact Hhere].
    destruct (starGreedy p (S i) s c k) as [b|] eqn:E; [|exact Hhere].
    intro H. injection H as ->.
    apply IH in E as [u [rest [-> [Hu Hk]]]].
    exists (x :: u), rest. simpl. rewrite Hx, Hu.
    replace (i + S (length u)) with (S i + length u) by lia. auto.
Qed.

Lemma starLazy_sound {A} (p : char -> bool) (s : str) :
  forall i c (k : cont A) a,
    starLazy p i s c k = Some a ->
    exists u rest, s = u ++ rest /\ forallb p u = true /\
                   k (i + length u) rest c = Some a.
Proof.
  induction s as [|x s IH]; intros i c k a; simpl.
  - destruct (k i [] c) as [b|] eqn:E; [|discriminate].
    intro H. injection H as ->. exists [], []. rewrite Nat.add_0_r. auto.
  - destruct (k i (x :: s) c) as [b|] eqn:E.
    + intro H. injection H as ->. exists [], (x :: s). rewrite Nat.add_0_r. auto.
    + destruct (p x) eqn:Hx; [|discriminate]. intro H.
      apply IH in H as [u [rest [-> [Hu Hk]]]].
      exists (x :: u), rest. simpl. rewrite Hx, Hu.
      replace (i + S (length u)) with (S i + length u) by lia. auto.
Qed.

(** Whatever the matcher hands to its continuation is a match in the sense
    of [matches]. *)
Lemma rmatch_sound (r : regex) :
  forall A i s c (k : cont A) a,
    rmatch r i s c k = Some a ->
    exists u rest c', s = u ++ rest /\ matches r i u rest c c' /\
                      k (i + length u) rest c' = Some a.
Proof.
  induction r as [|p|r1 IH1 r2 IH2|r1 IH1 r2 IH2|p|p|n r1 IH1|r1 IH1| |];
    intros A i s c k a; simpl.
  - intro H. exists [], s, c. rewrite Nat.add_0_r. repeat split; auto. constructor.
  - destruct s as [|x s]; [discriminate|]. destruct (p x) eqn:Hx; [|discriminate].
    intro H. exists [x], s, c. simpl. replace (i + 1) with (S i) by lia.
    repeat split; auto. now constructor.
  - intro H. apply IH1 in H as [u1 [rest1 [c1 [-> [M1 H]]]]].
    apply IH2 in H as [u2 [rest [c2 [-> [M2 H]]]]].
    exists (u1 ++ u2), rest, c2. rewrite length_app, Nat.add_assoc, app_assoc.
    repeat split; auto. econstructor; eassumption.
  - destruct (rmatch r1 i s c k) as [b|] eqn:E.
    + intro H. injection H as ->. apply IH1 in E as [u [rest [c' [-> [M H]]]]].
      exists u, rest, c'. repeat split; auto. now apply m_alt_l.
    + intro H. apply IH2 in H as [u [rest [c' [-> [M H]]]]].
      exists u, rest, c'. repeat split; auto. now apply m_alt_r.
  - intro H. apply starGreedy_sound in H as [u [rest [-> [Hu H]]]].
    exists u, rest, c. repeat split; auto. now constructor.
  - intro H. apply starLazy_sound in H as [u [rest [-> [Hu H]]]].
    exists u, rest, c. repeat split; auto. now constructor.
  - intro H. apply IH1 in H as [u [rest [c' [-> [M H]]]]].
    exists u, rest, ((n, u) :: c'). repeat split; [now constructor|].
    replace (i + length u - i) with (length u) in H by lia.
    now rewrite firstn_app, firstn_all, Nat.sub_diag, app_nil_r in H.
  - destruct (rmatch r1 i s c (fun _ _ c' => Some c')) as [c'|] eqn:E; [|discriminate].
    intro H. apply IH1 in E as [u [rest [c1 [-> [M E]]]]]. injection E as ->.
    exists [], (u ++ rest), c'. rewrite Nat.add_0_r. repeat split; auto. now constructor.
  - destruct (i =? 0) eqn:E; [|discriminate]. apply Nat.eqb_eq in E. subst i.
    intro H. exists [], s, c. repeat split; auto. constructor.
  - destruct s; [|discriminate].
    intro H. exists [], [], c. rewrite Nat.add_0_r. repeat split; auto. constructor.
Qed.

(** What [exec] returns: the text it reports is the text consumed by a match
    of the pattern, and the groups are the captures of that match. *)
Lemma matchAt_sound (r : regex) (i : nat) (s : str) (m : rmatched) :
  matchAt r i s = Some m ->
  exists rest, s = matched m ++ rest /\ matches r i (matched m) rest [] (groups m) /\
               matchLength m = length (matched m).
Proof.
  unfold matchAt. intro H. apply rmatch_sound in H as [u [rest [c' [-> [M H]]]]].
  injection H as <-. cbn [matched groups matchLength].
  replace (i + length u - i) with (length u) by lia.
  rewrite firstn_app, firstn_all, Nat.sub_diag, app_nil_r.
  exists rest. auto.
Qed.

Lemma searchFrom_sound (r : regex) (s : str) :
  forall i m, searchFrom r i s = Some m ->
  exists pre rest, s = pre ++ matched m ++ rest /\
                   matches r (i + length pre) (matched m) rest [] (groups m).
Proof.
  induction s as [|x s IH]; intros i m; simpl.
  - destruct (matchAt r i []) as [m'|] eqn:E; [|discriminate].
    intro H. injection H as ->. apply matchAt_sound in E as [rest [E [M _]]].
    exists [], rest. rewrite Nat.add_0_r. auto.
  - destruct (matchAt r i (x :: s)) as [m'|] eqn:E.
    + intro H. injection H as ->. apply matchAt_sound in E as [rest [E [M _]]].
      exists [], rest. rewrite Nat.add_0_r. auto.
    + intro H. apply IH in H as [pre [rest [-> M]]].
      exists (x :: pre), rest. simpl. replace (i + S (length pre)) with (S i + length pre) by lia.
      auto.
Qed.

Lemma execAllFrom_sound (r : regex) (s : str) :
  forall skip i m, In m (execAllFrom r skip i s) ->
  exists j pre rest, s = pre ++ matched m ++ rest /\
                     matches r j (matched m) rest [] (groups m).
Proof.
  induction s as [|x s IH]; intros skip i m; simpl.
  - destruct skip; [|intros []].
    destruct (matchAt r i []) as [m'|] eqn:E; [|intros []].
    intros [<- | []]. apply matchAt_sound in E as [rest [E [M _]]].
    exists i, [], rest. auto.
  - assert (forall skip' , In m (execAllFrom r skip' (S i) s) ->
            exists j pre rest, x :: s = pre ++ matched m ++ rest /\
                               matches r j (matched m) rest [] (groups m)) as Hrec.
    { intros skip' H. apply IH in H as [j [pre [rest [-> M]]]].
      now exists j, (x :: pre), rest. }
    destruct skip; [|apply Hrec].
    destruct (matchAt r i (x :: s)) as [m'|] eqn:E; [|apply Hrec].
    intros [<- | H]; [|now apply Hrec in H].
    apply matchAt_sound in E as [rest [E [M _]]]. exists i, [], rest. auto.
Qed.

(** *** The shape of a bullet line and of a generic match *)

Ltac invert_matches :=
  repeat match goal with
         | H : matches (Seq _ _) _ _ _ _ _ |- _ => inversion H; subst; clear H
         | H : matches (Chr _) _ _ _ _ _ |- _ => inversion H; subst; clear H
         | H : matches (Star _) _ _ _ _ _ |- _ => inversion H; subst; clear H
         | H : matches (Group _ _) _ _ _ _ _ |- _ => inversion H; subst; clear H
         | H : matches Bos _ _ _ _ _ |- _ => inversion H; subst; clear H
         end.

Lemma chr_eqb_true (x y : char) : chr_eqb x y = true -> y = x.
Proof. unfold chr_eqb. intro H. apply N.eqb_eq in H. congruence. Qed.

(** A match of the bullet pattern starts the line and is made of a bullet,
    the bold name between two pairs of asterisks, a hyphen and the
    description, with optional white space between them; the groups are the
    name and the description. *)
Lemma bulletLineRe_shape (i : nat) (u rest : str) (c' : captures) :
  matches bulletLineRe i u rest [] c' ->
  exists b ws1 bold ws2 ws3 text,
    i = 0 /\ isBullet b = true /\
    forallb isSpace ws1 = true /\ forallb isSpace ws2 = true /\
    forallb isSpace ws3 = true /\
    bold <> [] /\ forallb notStar bold = true /\
    text <> [] /\ forallb dot text = true /\
    u = [b] ++ ws1 ++ lit "**" ++ bold ++ lit "**" ++ ws2 ++ lit "-" ++ ws3 ++ text /\
    c' = [(2, text); (1, bold)].
Proof.
  intro H.
  change bulletLineRe with
    (Seq Bos (Seq (Chr isBullet) (Seq (Star isSpace)
       (Seq (Seq (Chr (chr_eqb 42%N)) (Chr (chr_eqb 42%N)))
          (Seq (Group 1 (Seq (Chr notStar) (Star notStar)))
             (Seq (Seq (Chr (chr_eqb 42%N)) (Chr (chr_eqb 42%N)))
                (Seq (Star isSpace) (Seq (Chr isDash) (Seq (Star isSpace)
                   (Group 2 (Seq (Chr dot) (Star dot)))))))))))) in H.
  invert_matches.
  repeat match goal with
         | H : chr_eqb 42%N _ = true |- _ => apply chr_eqb_true in H; subst
         | H : isDash ?x = true |- _ =>
             apply N.eqb_eq in H; subst
         end.
  lazymatch goal with
  | |- context [ [] ++ [?b] ++ ?w1 ++ (_ ++ _) ++ ?bd ++ (_ ++ _) ++ ?w2 ++ [_] ++ ?w3 ++ ?tx ] =>
      exists b, w1, bd, w2, w3, tx
  end.
  repeat match goal with |- _ /\ _ => split end;
    simpl; auto; try discriminate; try (apply andb_true_iff; now split).
Qed.

Lemma serverPattern_shape (i : nat) (u rest : str) (c' : captures) :
  matches serverPattern i u rest [] c' ->
  exists bold ws2 ws3 text,
    forallb isSpace ws2 = true /\ forallb isSpace ws3 = true /\
    bold <> [] /\ forallb notStar bold = true /\
    text <> [] /\ forallb notBulletNl text = true /\
    u = lit "**" ++ bold ++ lit "**" ++ ws2 ++ lit "-" ++ ws3 ++ text /\
    c' = [(2, text); (1, bold)].
Proof.
  intro H.
  change serverPattern with
    (Seq (Seq (Chr (chr_eqb 42%N)) (Chr (chr_eqb 42%N)))
       (Seq (Group 1 (Seq (Chr notStar) (Star notStar)))
          (Seq (Seq (Chr (chr_eqb 42%N)) (Chr (chr_eqb 42%N)))
             (Seq (Star isSpace) (Seq (Chr isDash) (Seq (Star isSpace)
                (Group 2 (Seq (Chr notBulletNl) (Star notBulletNl))))))))) in H.
  invert_matches.
  repeat match goal with
         | H : chr_eqb 42%N _ = true |- _ => apply chr_eqb_true in H; subst
         | H : isDash ?x = true |- _ =>
             apply N.eqb_eq in H; subst
         end.
  lazymatch goal with
  | |- context [ (_ ++ _) ++ ?bd ++ (_ ++ _) ++ ?w2 ++ [_] ++ ?w3 ++ ?tx ] =>
      exists bd, w2, w3, tx
  end.
  repeat match goal with |- _ /\ _ => split end;
    simpl; auto; try discriminate; try (apply andb_true_iff; now split).
Qed.

(** The groups of a bullet line and of a generic match, as the passes read
    them. *)
Lemma bullet_groups (line : str) (m : rmatched) :
  search bulletLineRe line = Some m ->
  exists b ws1 ws2 ws3 rest,
    isBullet b = true /\
    forallb isSpace ws1 = true /\ forallb isSpace ws2 = true /\
    forallb isSpace ws3 = true /\
    group 1 m <> [] /\ forallb notStar (group 1 m) = true /\
    group 2 m <> [] /\ forallb dot (group 2 m) = true /\
    line = [b] ++ ws1 ++ lit "**" ++ group 1 m ++ lit "**" ++ ws2 ++ lit "-" ++ ws3
             ++ group 2 m ++ rest.
Proof.
  unfold search. intro H. apply searchFrom_sound in H as [pre [rest [Hline M]]].
  apply bulletLineRe_shape in M
    as [b [ws1 [bold [ws2 [ws3 [text [Hi [Hb [H1 [H2 [H3 [Hn [Hns [Ht [Hts [Hu Hc]]]]]]]]]]]]]]]].
  destruct pre; [|simpl in Hi; discriminate]. simpl in Hline.
  unfold group. rewrite Hc. simpl.
  exists b, ws1, ws2, ws3, rest. repeat split; auto.
  rewrite Hline, Hu. repeat (rewrite <- ?app_assoc; simpl). reflexivity.
Qed.

Lemma generic_groups (content : str) (m : rmatched) :
  In m (execAll serverPattern content) ->
  exists pre ws2 ws3 rest,
    forallb isSpace ws2 = true /\ forallb isSpace ws3 = true /\
    group 1 m <> [] /\ forallb notStar (group 1 m) = true /\
    group 2 m <> [] /\ forallb notBulletNl (group 2 m) = true /\
    content = pre ++ lit "**" ++ group 1 m ++ lit "**" ++ ws2 ++ lit "-" ++ ws3
                ++ group 2 m ++ rest.
Proof.
  unfold execAll. intro H. apply execAllFrom_sound in H as [j [pre [rest [Hc M]]]].
  apply serverPattern_shape in M
    as [bold [ws2 [ws3 [text [H2 [H3 [Hn [Hns [Ht [Hts [Hu Hg]]]]]]]]]]].
  unfold group. rewrite Hg. simpl.
  exists pre, ws2, ws3, rest. repeat split; auto.
  rewrite Hc, Hu. repeat (rewrite <- ?app_assoc; simpl). reflexivity.
Qed.

(** *** Strings: runs, trimming, replacing *)

Lemma forallb_Forall {A} (p : A -> bool) (l : list A) :
  forallb p l = true <-> Forall (fun x => p x = true) l.
Proof. rewrite forallb_forall, Forall_forall. reflexivity. Qed.






Lemma dropWhile_split (p : char -> bool) (s : str) :
  exists pre, s = pre ++ dropWhile p s /\ forallb p pre = true.
Proof.
  induction s as [|c s [pre [E Hpre]]]; simpl.
  - now exists [].
  - destruct (p c) eqn:Hc.
    + exists (c :: pre). simpl. rewrite Hc, Hpre. split; [now f_equal | reflexivity].
    + now exists [].
Qed.

Lemma dropWhile_head (p : char -> bool) (s : str) (x : char) (rest : str) :
  dropWhile p s = x :: rest -> p x = false.
Proof.
  induction s as [|c s IH]; simpl; [discriminate|].
  destruct (p c) eqn:Hc; [exact IH|]. intro H. injection H as <- _. exact Hc.
Qed.

(** [trim] removes white space at both ends and nothing else. *)
Lemma trim_split (s : str) :
  exists pre post, s = pre ++ trim s ++ post /\
                   forallb isSpace pre = true /\ forallb isSpace post = true.
Proof.
  unfold trim.
  destruct (dropWhile_split isSpace s) as [pre [E Hpre]].
  destruct (dropWhile_split isSpace (rev (dropWhile isSpace s))) as [post' [E' Hpost]].
  exists pre, (rev post'). split; [|split; [exact Hpre|]].
  - rewrite <- rev_app_distr, <- E', rev_involutive. exact E.
  - apply forallb_Forall. apply forallb_Forall in Hpost.
    rewrite Forall_forall in *. intros x Hx. apply Hpost. now apply in_rev.
Qed.

Lemma trim_trimmed (s : str) : trimmed (trim s).
Proof.
  split.
  - intros x rest E.
    destruct (dropWhile_split isSpace (rev (dropWhile isSpace s))) as [post' [E' _]].
    assert (dropWhile isSpace s = trim s ++ rev post') as Hd.
    { unfold trim. rewrite <- rev_app_distr, <- E'. now rewrite rev_involutive. }
    rewrite E in Hd. simpl in Hd. now apply dropWhile_head in Hd.
  - intros x front E. unfold trim in E.
    apply (f_equal (@rev char)) in E. rewrite rev_involutive, rev_app_distr in E.
    simpl in E. now apply dropWhile_head in E.
Qed.

Lemma trim_Forall (Q : char -> Prop) (s : str) : Forall Q s -> Forall Q (trim s).
Proof.
  intro H. destruct (trim_split s) as [pre [post [E _]]].
  rewrite E in H. apply Forall_app in H as [_ H]. now apply Forall_app in H as [H _].
Qed.

(** Trimming twice is trimming once. *)
Lemma dropWhile_fixed (p : char -> bool) (s : str) :
  (forall x rest, s = x :: rest -> p x = false) -> dropWhile p s = s.
Proof.
  destruct s as [|x s]; intro H; simpl; [reflexivity|].
  now rewrite (H x s eq_refl).
Qed.

Lemma trim_idempotent (s : str) : trim (trim s) = trim s.
Proof.
  destruct (trim_trimmed s) as [Hhead Hlast].
  unfold trim at 1. rewrite (@dropWhile_fixed isSpace (trim s) Hhead).
  rewrite dropWhile_fixed; [apply rev_involutive|].
  intros x rest E. apply (Hlast x (rev rest)).
  rewrite <- (rev_involutive (trim s)), E. reflexivity.
Qed.


Lemma dot_not_line_feed (c : char) : dot c = true -> c <> 10%N.
Proof. intros H ->. discriminate. Qed.

Lemma notBulletNl_not_line_feed (c : char) : notBulletNl c = true -> c <> 10%N.
Proof. intros H ->. discriminate. Qed.



(** *** The three passes, one after the other *)

Section PassFacts.

Variable toLowerCase : str -> str.
Variable random : nat -> Z -> Z.

(** A section pass keeps what was collected and appends entries made of
    bullet lines of its section. *)
Lemma sectionPass_adds (P : Server -> Prop) (sectionRe : regex)
    (entry : list Server -> rmatched -> Server) (content : str) (servers : list Server) :
  (forall acc sec line m,
      search sectionRe content = Some sec -> In line (split 10%N (matched sec)) ->
      search bulletLineRe line = Some m -> P (entry acc m)) ->
  exists added,
    sectionPass sectionRe entry content servers = servers ++ added /\ Forall P added.
Proof.
  intro HP. unfold sectionPass.
  destruct (search sectionRe content) as [sec|] eqn:Hsec.
  - apply fold_left_inv.
    + exists []. now rewrite app_nil_r.
    + intros acc line [added [-> Hadded]] Hline. unfold sectionStep.
      destruct (search bulletLineRe line) as [m|] eqn:Hm; [|now exists added].
      exists (added ++ [entry (servers ++ added) m]). rewrite app_assoc. split; [reflexivity|].
      apply Forall_app. split; [exact Hadded|]. constructor; [|constructor].
      now apply (HP _ sec line).
  - exists []. now rewrite app_nil_r.
Qed.

(** The fallback pass keeps what was collected and appends entries made of
    matches of the generic pattern that pass the guard of the loop. *)
Lemma fallbackPass_adds (P : Server -> Prop) (content : str) (servers : list Server) :
  (forall acc m,
      In m (execAll serverPattern content) ->
      (length (group 1 m) <? 50) = true ->
      ~ In (fallbackId toLowerCase (group 1 m)) (map id acc) ->
      P (fallbackEntry toLowerCase random acc (group 1 m) (group 2 m))) ->
  exists added,
    fallbackPass toLowerCase random content servers = servers ++ added /\ Forall P added.
Proof.
  intro HP. unfold fallbackPass.
  apply fold_left_inv.
  - exists []. now rewrite app_nil_r.
  - intros acc m [added [-> Hadded]] Hm. unfold fallbackStep.
    destruct (negb (isEmpty (group 1 m)) && negb (isEmpty (group 2 m))
              && (length (group 1 m) <? 50))%bool eqn:Hguard; [|now exists added].
    destruct (find _ (servers ++ added)) eqn:Hfind; [now exists added|].
    exists (added ++ [fallbackEntry toLowerCase random (servers ++ added)
                        (group 1 m) (group 2 m)]).
    rewrite app_assoc. split; [reflexivity|].
    apply Forall_app. split; [exact Hadded|]. constructor; [|constructor].
    apply HP; [exact Hm | |].
    + now apply andb_true_iff in Hguard as [_ Hlen].
    + intro Hin. apply in_map_iff in Hin as [s0 [Hid Hs]].
      apply (find_none _ _ Hfind) in Hs. simpl in Hs.
      rewrite Hid, str_eqb_refl in Hs. discriminate.
Qed.

(** The result of the extractor is the first fifty of: the reference
    entries, then the community entries, then the fallback entries. *)
Lemma parseREADMEContent_decomposed (P1 P2 P3 : Server -> Prop) (content : str) :
  (forall acc line m, search bulletLineRe line = Some m ->
                      P1 (referenceEntry toLowerCase random acc m)) ->
  (forall acc line m, search bulletLineRe line = Some m ->
                      P2 (communityEntry toLowerCase random acc m)) ->
  (forall acc m,
      In m (execAll serverPattern content) ->
      (length (group 1 m) <? 50) = true ->
      ~ In (fallbackId toLowerCase (group 1 m)) (map id acc) ->
      P3 (fallbackEntry toLowerCase random acc (group 1 m) (group 2 m))) ->
  exists ref com fb,
    parseREADMEContent toLowerCase random content = firstn 50 (ref ++ com ++ fb) /\
    referenceEntries toLowerCase random content = ref /\
    sectionEntries toLowerCase random content = ref ++ com /\
    Forall P1 ref /\ Forall P2 com /\ Forall P3 fb.
Proof.
  intros H1 H2 H3. rewrite parseREADMEContent_passes. unfold sectionEntries, referenceEntries.
  destruct (sectionPass_adds P1 referenceSectionRe (referenceEntry toLowerCase random)
              content [] (fun acc _ line m _ _ => H1 acc line m)) as [ref [-> Href]].
  destruct (sectionPass_adds P2 communitySectionRe (communityEntry toLowerCase random)
              content ([] ++ ref) (fun acc _ line m _ _ => H2 acc line m)) as [com [-> Hcom]].
  destruct (fallbackPass_adds P3 content (([] ++ ref) ++ com) H3) as [fb [-> Hfb]].
  exists ref, com, fb. simpl. rewrite <- app_assoc. repeat split; auto.
Qed.

Lemma parseREADMEContent_Forall (Q : Server -> Prop) (content : str) :
  (forall acc line m, search bulletLineRe line = Some m ->
                      Q (referenceEntry toLowerCase random acc m)) ->
  (forall acc line m, search bulletLineRe line = Some m ->
                      Q (communityEntry toLowerCase random acc m)) ->
  (forall acc m,
      In m (execAll serverPattern content) ->
      (length (group 1 m) <? 50) = true ->
      ~ In (fallbackId toLowerCase (group 1 m)) (map id acc) ->
      Q (fallbackEntry toLowerCase random acc (group 1 m) (group 2 m))) ->
  Forall Q (parseREADMEContent toLowerCase random content).
Proof.
  intros H1 H2 H3.
  destruct (parseREADMEContent_decomposed Q Q Q content H1 H2 H3)
    as [ref [com [fb [-> [_ [_ [Href [Hcom Hfb]]]]]]]].
  apply Forall_firstn. rewrite !Forall_app. auto.
Qed.

(** A bullet line of a section is the beginning of a line of the
    document. *)
Lemma section_line_of_document (sectionRe : regex) (content : str) (sec : rmatched)
    (line : str) (m : rmatched) :
  firstClass sectionRe = Some (fun c => chr_eqb (asciiUpper c) (asciiUpper 35%N)) ->
  search sectionRe content = Some sec ->
  In line (split 10%N (matched sec)) ->
  search bulletLineRe line = Some m ->
  exists L t, In L (split 10%N content) /\ L = line ++ t.
Proof.
  intros Hfirst Hsec Hline Hm. unfold search in Hsec.
  destruct (searchFrom_piece _ _ _ Hsec) as [pre [post Hcontent]].
  destruct (searchFrom_first _ _ Hfirst _ Hsec) as [x [rest [Hmatched Hx]]].
  apply heading_first in Hx. subst x.
  destruct (@split_first 10%N 35%N rest eq_refl) as [h [tl0 Es]].
  rewrite Hmatched, Es in Hline. destruct Hline as [<- | Hline].
  - rewrite bulletLineRe_needs_bullet in Hm by reflexivity. discriminate.
  - rewrite Hcontent. apply split_piece. rewrite Hmatched, Es. exact Hline.
Qed.

(** X1.  The extractor returns at most fifty entries: the first fifty of the
    reference entries, followed by the community entries, followed by the
    fallback entries, each pass fixing the category, author, version, tags
    and repository of its entries as the source writes them. *)
Theorem extraction_runs_three_passes_in_order (content : str) :
  exists ref com fb,
    parseREADMEContent toLowerCase random content = firstn 50 (ref ++ com ++ fb) /\
    referenceEntries toLowerCase random content = ref /\
    sectionEntries toLowerCase random content = ref ++ com /\
    Forall referenceShaped ref /\ Forall communityShaped com /\
    Forall fallbackShaped fb /\
    length (parseREADMEContent toLowerCase random content) <= 50.
Proof.
  destruct (parseREADMEContent_decomposed referenceShaped communityShaped fallbackShaped
              content) as [ref [com [fb [E [Href [Hsect [H1 [H2 H3]]]]]]]].
  - intros. repeat split.
  - intros. repeat split.
  - intros acc m _ _ _. unfold fallbackShaped. cbn [fallbackEntry author version url
      repository category tags name id].
    repeat split; try discriminate.
    + destruct (includes _ _ || includes _ _)%bool; [reflexivity | discriminate].
    + destruct (includes _ _ || includes _ _)%bool; [reflexivity | discriminate].
    + destruct (includes (group 1 m) (lit "MCP")); [reflexivity | discriminate].
    + destruct (includes (group 1 m) (lit "MCP")); [reflexivity | discriminate].
  - exists ref, com, fb. repeat split; auto.
    rewrite E. apply firstn_le_length.
Qed.


(** X3.  No description of an extracted entry contains a line feed; the
    descriptions of the two section passes are not empty; the descriptions of
    the fallback pass are trimmed: they neither begin nor end with white
    space. *)
Theorem extracted_descriptions_are_single_line (content : str) :
  Forall (fun e => noLineFeed (description e))
    (parseREADMEContent toLowerCase random content) /\
  Forall (fun e => description e <> []) (sectionEntries toLowerCase random content) /\
  exists fb,
    parseREADMEContent toLowerCase random content
      = firstn 50 (sectionEntries toLowerCase random content ++ fb) /\
    Forall (fun e => trimmed (description e)) fb.
Proof.
  assert (forall line m, search bulletLineRe line = Some m ->
            group 2 m <> [] /\ noLineFeed (group 2 m)) as Hbullet.
  { intros line m Hm.
    apply bullet_groups in Hm as [b [w1 [w2 [w3 [rest [_ [_ [_ [_ [_ [_ [Hne [Hdot _]]]]]]]]]]]]].
    split; [exact Hne|]. apply forallb_Forall in Hdot.
    eapply Forall_impl; [|exact Hdot]. apply dot_not_line_feed. }
  split; [|split].
  - apply parseREADMEContent_Forall.
    + intros acc line m Hm. now apply Hbullet in Hm.
    + intros acc line m Hm. now apply Hbullet in Hm.
    + intros acc m Hm _ _. cbn [description fallbackEntry]. apply trim_Forall.
      apply generic_groups in Hm as [pre [w2 [w3 [rest [_ [_ [_ [_ [_ [Hcls _]]]]]]]]]].
      apply forallb_Forall in Hcls.
      eapply Forall_impl; [|exact Hcls]. apply notBulletNl_not_line_feed.
  - destruct (parseREADMEContent_decomposed
                (fun e => description e <> []) (fun e => description e <> [])
                (fun _ => True) content)
      as [ref [com [fb [_ [_ [-> [H1 [H2 _]]]]]]]]; auto.
    + intros acc line m Hm. now apply Hbullet in Hm.
    + intros acc line m Hm. now apply Hbullet in Hm.
    + apply Forall_app. now split.
  - destruct (parseREADMEContent_decomposed
                (fun _ => True) (fun _ => True)
                (fun e => trimmed (description e)) content)
      as [ref [com [fb [E [_ [-> [_ [_ H3]]]]]]]]; auto.
    + intros. apply trim_trimmed.
    + exists fb. now rewrite <- app_assoc.
Qed.




(** X7.  Every entry of the community pass is read off a line of the
    document: the line is a bullet, the entry's name between two pairs of
    asterisks, a hyphen and the entry's description, with optional white
    space between them, and possibly more text after the description. *)
Theorem community_entry_reads_its_line (content : str) :
  exists ref com,
    sectionEntries toLowerCase random content = ref ++ com /\
    referenceEntries toLowerCase random content = ref /\
    Forall (fun e =>
              exists L b ws1 ws2 ws3 rest,
                In L (split 10%N content) /\
                isBullet b = true /\
                forallb isSpace ws1 = true /\ forallb isSpace ws2 = true /\
                forallb isSpace ws3 = true /\
                L = [b] ++ ws1 ++ lit "**" ++ name e ++ lit "**" ++ ws2 ++ lit "-" ++ ws3
                      ++ description e ++ rest) com.
Proof.
  unfold sectionEntries, referenceEntries.
  set (ref := sectionPass referenceSectionRe (referenceEntry toLowerCase random) content []).
  destruct (sectionPass_adds
              (fun e => exists L b ws1 ws2 ws3 rest,
                 In L (split 10%N content) /\ isBullet b = true /\
                 forallb isSpace ws1 = true /\ forallb isSpace ws2 = true /\
                 forallb isSpace ws3 = true /\
                 L = [b] ++ ws1 ++ lit "**" ++ name e ++ lit "**" ++ ws2 ++ lit "-" ++ ws3
                       ++ description e ++ rest)
              communitySectionRe (communityEntry toLowerCase random) content ref)
    as [com [E Hcom]].
  - intros acc sec line m Hsec Hline Hm. cbn [name description communityEntry].
    destruct (@section_line_of_document communitySectionRe content sec line m
                eq_refl Hsec Hline Hm) as [L [t [HL ->]]].
    apply bullet_groups in Hm
      as [b [w1 [w2 [w3 [rest [Hb [H1 [H2 [H3 [_ [_ [_ [_ Eline]]]]]]]]]]]]].
    exists (line ++ t), b, w1, w2, w3, (rest ++ t). repeat split; auto.
    rewrite Eline. repeat (rewrite <- ?app_assoc; simpl). reflexivity.
  - exists ref, com. auto.
Qed.

(** X21.  Every entry of the fallback pass is read off the document: its
    name stands there between two pairs of asterisks, followed by a hyphen
    and a text without bullet or line feed, with optional white space
    around the hyphen; its description is that text trimmed, and its id is
    derived from its name. *)
Theorem fallback_entry_reads_the_document (content : str) :
  exists fb,
    parseREADMEContent toLowerCase random content
      = firstn 50 (sectionEntries toLowerCase random content ++ fb) /\
    Forall (fun e =>
              exists pre ws2 ws3 text rest,
                content = pre ++ lit "**" ++ name e ++ lit "**" ++ ws2 ++ lit "-" ++ ws3
                            ++ text ++ rest /\
                forallb isSpace ws2 = true /\ forallb isSpace ws3 = true /\
                text <> [] /\ forallb notBulletNl text = true /\
                description e = trim text /\
                id e = fallbackId toLowerCase (name e)) fb.
Proof.
  destruct (parseREADMEContent_decomposed
              (fun _ => True) (fun _ => True)
              (fun e =>
                 exists pre ws2 ws3 text rest,
                   content = pre ++ lit "**" ++ name e ++ lit "**" ++ ws2 ++ lit "-" ++ ws3
                               ++ text ++ rest /\
                   forallb isSpace ws2 = true /\ forallb isSpace ws3 = true /\
                   text <> [] /\ forallb notBulletNl text = true /\
                   description e = trim text /\
                   id e = fallbackId toLowerCase (name e)) content)
    as [ref [com [fb [E [_ [-> [_ [_ H3]]]]]]]]; auto.
  - intros acc m Hm _ _. cbn [name description id fallbackEntry].
    apply generic_groups in Hm
      as [pre [w2 [w3 [rest [H2 [Hw3 [_ [_ [Hne [Hcls Hc]]]]]]]]]].
    exists pre, w2, w3, (group 2 m), rest. repeat split; auto.
  - exists fb. split; [now rewrite <- app_assoc | exact H3].
Qed.

End PassFacts.

(** *** The cache and the dispatch *)

Section ServerFacts.

Variable toLowerCase : str -> str.

Lemma stale_not_fresh (env : Env) (st : State) :
  (CACHE_DURATION <= now env - lastFetchTime st)%Z -> cacheIsFresh env st = false.
Proof.
  intro H. unfold cacheIsFresh. destruct (cachedServers st); [|reflexivity].
  now apply Z.ltb_ge.
Qed.

Lemma getServersData_fetches (env : Env) (st : State) :
  cacheIsFresh env st = false ->
  fetchCount (snd (getServersData toLowerCase env st)) = S (fetchCount st).
Proof.
  intro H. rewrite (getServersData_miss toLowerCase env st H).
  destruct (upstream env); [reflexivity|]. simpl. now destruct (0 <? length _).
Qed.

(** X8.  A snapshot is reused only while it is younger than five minutes:
    from the age of 300000 ms on, [getServersData] fetches, and when that
    fetch fails the call fails with the upstream's message although a
    snapshot is held; the stale snapshot is never served. *)
Theorem snapshot_expires_at_five_minutes (env : Env) (st : State) :
  (CACHE_DURATION <= now env - lastFetchTime st)%Z ->
  fetchCount (snd (getServersData toLowerCase env st)) = S (fetchCount st) /\
  (forall message, upstream env = UpstreamError message ->
     getServersData toLowerCase env st = (Throw message, afterFetch st)) /\
  (forall servers st', getServersData toLowerCase env st = (Ok servers, st') ->
     exists content, upstream env = UpstreamReadme content /\
       servers = parseREADMEContent toLowerCase (random env) content).
Proof.
  intro Hage. pose proof (stale_not_fresh env st Hage) as Hstale.
  split; [now apply getServersData_fetches|]. split.
  - intros message Hup. now rewrite (getServersData_miss toLowerCase env st Hstale), Hup.
  - intros servers st' Hget.
    rewrite (getServersData_miss toLowerCase env st Hstale) in Hget.
    destruct (upstream env) as [message|content]; [discriminate|].
    simpl in Hget. destruct (0 <? length _); [|discriminate].
    injection Hget as <- _. now exists content.
Qed.

(** X9.  What [getServersData] returns is held by the cache afterwards and
    is younger than five minutes at the time of the call. *)
Theorem returned_snapshot_is_cached_and_fresh (env : Env) (st st' : State)
    (servers : list Server) :
  getServersData toLowerCase env st = (Ok servers, st') ->
  cachedServers st' = Some servers /\
  (now env - lastFetchTime st' < CACHE_DURATION)%Z /\
  cacheIsFresh env st' = true.
Proof.
  intro Hget.
  assert (cachedServers st' = Some servers /\
          (now env - lastFetchTime st' < CACHE_DURATION)%Z) as [Hc Ht].
  { destruct (cacheIsFresh env st) eqn:Hf.
    - apply cacheIsFresh_spec in Hf as [cached [Hc Hlt]].
      rewrite (getServersData_hit toLowerCase env st Hc Hlt) in Hget.
      injection Hget as <- <-. now split.
    - rewrite (getServersData_miss toLowerCase env st Hf) in Hget.
      destruct (upstream env) as [message|content]; [discriminate|].
      simpl in Hget. destruct (0 <? length _); [|discriminate].
      injection Hget as <- <-. simpl. split; [reflexivity|].
      unfold CACHE_DURATION. lia. }
  repeat split; auto. apply cacheIsFresh_spec. now exists servers.
Qed.

(** A handler that reads the snapshot answers from what [getServersData]
    returns, or turns its failure into an error result. *)
Lemma callTool_reads (env : Env) (request : Request) (st : State) :
  readsSnapshot request = true ->
  callTool toLowerCase env request st =
  match getServersData toLowerCase env st with
  | (Ok servers, st') =>
      ({| content := answer toLowerCase request servers; isError := false |}, st')
  | (Throw message, st') => ({| content := ErrorText message; isError := true |}, st')
  end.
Proof.
  unfold callTool.
  destruct request as [query cat limit | [[|c sid]|] | | | name_]; try discriminate;
    intros _; simpl; unfold bind;
    destruct (getServersData toLowerCase env st) as [[servers|message] st'];
    try reflexivity.
  simpl. now destruct (findServer (c :: sid) servers).
Qed.

Lemma callTool_refresh (env : Env) (st : State) :
  callTool toLowerCase env registry_refresh_data st =
  match getServersData toLowerCase env (snd (invalidate st)) with
  | (Ok servers, st') =>
      ({| content := DataRefreshed (length servers); isError := false |}, st')
  | (Throw message, st') => ({| content := ErrorText message; isError := true |}, st')
  end.
Proof.
  unfold callTool. simpl. unfold bind at 1. simpl. unfold bind.
  now destruct (getServersData toLowerCase env _) as [[servers|message] st'].
Qed.

Lemma getServersData_fetchCount (env : Env) (st : State) :
  fetchCount st <= fetchCount (snd (getServersData toLowerCase env st))
                <= S (fetchCount st).
Proof.
  destruct (cacheIsFresh env st) eqn:Hf.
  - apply cacheIsFresh_spec in Hf as [cached [Hc Hlt]].
    rewrite (getServersData_hit toLowerCase env st Hc Hlt). simpl. lia.
  - rewrite (getServersData_fetches env st Hf). lia.
Qed.

(** X10.  A tool call performs at most one fetch.  A call of an unknown
    tool, and a details call without [serverId] or with the empty one, are
    answered with an error before anything is fetched, the state left as it
    was. *)
Theorem tool_call_fetches_at_most_once (env : Env) (request : Request) (st : State) :
  fetchCount st <= fetchCount (snd (callTool toLowerCase env request st))
                <= S (fetchCount st) /\
  (forall name_,
      callTool toLowerCase env (unknown_tool name_) st
      = ({| content := ErrorText (lit "Unknown tool: " ++ name_); isError := true |}, st)) /\
  (forall serverId,
      serverId = None \/ serverId = Some [] ->
      callTool toLowerCase env (registry_get_server_details serverId) st
      = ({| content := ErrorText (lit "serverId is required"); isError := true |}, st)).
Proof.
  split; [|split].
  - rewrite callTool_state.
    destruct (handle_state toLowerCase env request st) as [-> | [-> | [_ ->]]].
    + lia.
    + apply getServersData_fetchCount.
    + apply (getServersData_fetchCount env (snd (invalidate st))).
  - reflexivity.
  - intros serverId [-> | ->]; reflexivity.
Qed.

(** X11.  When the upstream fails, its message is what the caller reads:
    every handler that has to fetch answers with that message as an error
    result ([isError] set), and so does the refresh, whatever the state. *)
Theorem upstream_failure_is_reported_in_band (env : Env) (st : State) (message : str) :
  upstream env = UpstreamError message ->
  (forall request,
      readsSnapshot request = true -> cacheIsFresh env st = false ->
      callTool toLowerCase env request st
      = ({| content := ErrorText message; isError := true |}, afterFetch st)) /\
  callTool toLowerCase env registry_refresh_data st
  = ({| content := ErrorText message; isError := true |},
     afterFetch (snd (invalidate st))).
Proof.
  intro Hup. split.
  - intros request Hreads Hstale.
    now rewrite (callTool_reads env request st Hreads),
      (getServersData_miss toLowerCase env st Hstale), Hup.
  - rewrite callTool_refresh, getServersData_miss by reflexivity. now rewrite Hup.
Qed.

(** X12.  [getServersData] succeeds exactly when the snapshot held is
    fresh or the upstream answers with a document from which at least one
    entry is extracted. *)
Theorem get_succeeds_exactly_when (env : Env) (st : State) :
  (exists servers st', getServersData toLowerCase env st = (Ok servers, st')) <->
  cacheIsFresh env st = true \/
  exists content, upstream env = UpstreamReadme content /\
                  parseREADMEContent toLowerCase (random env) content <> [].
Proof.
  destruct (cacheIsFresh env st) eqn:Hf.
  - split; [now left|]. intros _.
    apply cacheIsFresh_spec in Hf as [cached [Hc Hlt]].
    exists cached, st. now apply getServersData_hit.
  - rewrite (getServersData_miss toLowerCase env st Hf). split.
    + intros [servers [st' H]]. right.
      destruct (upstream env) as [message|content]; [discriminate|].
      exists content. split; [reflexivity|]. simpl in H.
      destruct (parseREADMEContent toLowerCase (random env) content); [discriminate|].
      discriminate.
    + intros [H | [content [-> Hne]]]; [discriminate|]. simpl.
      destruct (parseREADMEContent toLowerCase (random env) content) as [|e l];
        [contradiction|].
      simpl. now eexists; eexists.
Qed.

(** X13.  While the snapshot held is fresh, the search, details and
    categories handlers answer from it, whatever the upstream would say,
    and leave the state as it is. *)
Theorem fresh_reads_leave_the_state_alone (env : Env) (request : Request) (st : State) :
  readsSnapshot request = true -> cacheIsFresh env st = true ->
  exists cached,
    cachedServers st = Some cached /\
    callTool toLowerCase env request st
    = ({| content := answer toLowerCase request cached; isError := false |}, st).
Proof.
  intros Hreads Hf. apply cacheIsFresh_spec in Hf as [cached [Hc Hlt]].
  exists cached. split; [exact Hc|].
  now rewrite (callTool_reads env request st Hreads),
    (getServersData_hit toLowerCase env st Hc Hlt).
Qed.

(** X14.  A refresh that succeeds replaces the snapshot by the entries of
    the document just fetched, stamped with the time of the call, and
    reports their number; a read made less than five minutes later is
    answered from these entries without a fetch. *)
Theorem refresh_then_read_uses_the_new_snapshot (env1 env2 : Env) (st : State)
    (content : str) :
  upstream env1 = UpstreamReadme content ->
  parseREADMEContent toLowerCase (random env1) content <> [] ->
  (now env2 - now env1 < CACHE_DURATION)%Z ->
  let servers := parseREADMEContent toLowerCase (random env1) content in
  let st1 := {| cachedServers := Some servers;
                lastFetchTime := now env1;
                fetchCount := S (fetchCount st) |} in
  callTool toLowerCase env1 registry_refresh_data st
    = ({| content := DataRefreshed (length servers); isError := false |}, st1) /\
  (forall request,
      readsSnapshot request = true ->
      callTool toLowerCase env2 request st1
      = ({| content := answer toLowerCase request servers; isError := false |}, st1)).
Proof.
  intros Hup Hne Hwin servers st1. split.
  - rewrite callTool_refresh, getServersData_miss by reflexivity. rewrite Hup. simpl.
    fold servers. destruct servers as [|e l] eqn:E; [contradiction|]. reflexivity.
  - intros request Hreads.
    rewrite (callTool_reads env2 request st1 Hreads).
    now rewrite (getServersData_hit toLowerCase env2 st1 (cached := servers)).
Qed.

(** X15.  In every state the server reaches, a snapshot held has between
    one and fifty entries, and while none is held the timestamp is 0. *)
Theorem cache_holds_one_to_fifty_entries (st : State) :
  reachable toLowerCase st ->
  (forall servers, cachedServers st = Some servers -> 1 <= length servers <= 50) /\
  (cachedServers st = None -> lastFetchTime st = 0%Z).
Proof.
  intro Hreach. split.
  - intros servers Hc.
    pose proof (reachable_inv Hreach) as Hinv.
    destruct (Hinv servers Hc) as [Hne [random_ [content ->]]].
    split.
    + destruct (parseREADMEContent toLowerCase random_ content); [contradiction | simpl; lia].
    + rewrite parseREADMEContent_passes. apply firstn_le_length.
  - induction Hreach as [|env request st _ IH]; [reflexivity|].
    rewrite callTool_state.
    assert (forall st0, (cachedServers st0 = None -> lastFetchTime st0 = 0%Z) ->
              cachedServers (snd (getServersData toLowerCase env st0)) = None ->
              lastFetchTime (snd (getServersData toLowerCase env st0)) = 0%Z) as Hget.
    { intros st0 H0.
      destruct (getServersData toLowerCase env st0) as [[servers|message] st'] eqn:G; simpl.
      - apply getServersData_ok in G as [Hc _]. congruence.
      - apply getServersData_throw_sameCache in G as [Hc Ht]. rewrite Hc, Ht. exact H0. }
    destruct (handle_state toLowerCase env request st) as [-> | [-> | [_ ->]]].
    + exact IH.
    + now apply Hget.
    + apply Hget. reflexivity.
Qed.

End ServerFacts.

(** *** Searching and looking up *)

Lemma sublist_nil {A} (l : list A) : sublist [] l.
Proof. induction l; constructor; assumption. Qed.

Lemma sublist_firstn_filter {A} (f : A -> bool) (n : nat) (l : list A) :
  sublist (firstn n (filter f l)) l.
Proof.
  revert n. induction l as [|x l IH]; intro n; simpl.
  - rewrite firstn_nil. constructor.
  - destruct (f x).
    + destruct n as [|n]; simpl; [apply sublist_nil | now apply sub_keep].
    + now apply sub_skip.
Qed.

Lemma slice0_firstn {A} (n : Z) (l : list A) : exists k, slice0 n l = firstn k l.
Proof. unfold slice0. destruct (n <? 0)%Z; eauto. Qed.

Lemma replaceFirst_eq (pat by_ s : str) :
  replaceFirst pat by_ s
  = if startsWith pat s then by_ ++ skipn (length pat) s
    else match s with
         | [] => []
         | c :: s' => c :: replaceFirst pat by_ s'
         end.
Proof. now destruct s. Qed.

Lemma replaceFirst_prefix (pat by_ rest : str) :
  replaceFirst pat by_ (pat ++ rest) = by_ ++ rest.
Proof.
  assert (startsWith pat (pat ++ rest) = true) as E.
  { induction pat as [|x pat IH]; simpl; [reflexivity|].
    unfold chr_eqb. now rewrite N.eqb_refl. }
  rewrite replaceFirst_eq, E. f_equal.
  rewrite skipn_app, skipn_all, Nat.sub_diag. reflexivity.
Qed.

Lemma replaceFirst_absent (pat by_ s : str) :
  includes s pat = false -> replaceFirst pat by_ s = s.
Proof.
  induction s as [|c s IH]; simpl.
  - intro H. apply orb_false_iff in H as [H _]. now rewrite H.
  - intro H. apply orb_false_iff in H as [H1 H2]. rewrite H1. f_equal. auto.
Qed.

Lemma lookup_app {V} (key : str) (o1 o2 : list (str * V)) :
  lookup key (o1 ++ o2)
  = match lookup key o1 with Some v => Some v | None => lookup key o2 end.
Proof.
  induction o1 as [|[k v] o1 IH]; simpl; [reflexivity|].
  now destruct (str_eqb k key).
Qed.

Lemma listedCount_increment (key k : str) (o : list (str * CategoryInfo)) :
  lookup k o <> None ->
  listedCount key (increment k o)
  = listedCount key o + (if str_eqb k key then 1 else 0).
Proof.
  unfold listedCount. induction o as [|[k' v] o IH]; simpl; [congruence|].
  intro H. destruct (str_eqb k' k) eqn:E1; simpl.
  - apply str_eqb_eq in E1. subst k'.
    destruct (str_eqb k key) eqn:E2; simpl; lia.
  - destruct (str_eqb k' key) eqn:E2.
    + destruct (str_eqb k key) eqn:E3; [|lia].
      apply str_eqb_eq in E2, E3. subst. now rewrite str_eqb_refl in E1.
    + now apply IH.
Qed.

(** The loop invariant of the categories handler, category by category. *)
Lemma listedCount_from (key : str) (servers : list Server)
    (acc : list (str * CategoryInfo)) :
  Forall (fun e => isEmpty (category e) = false /\ inherited (category e) = false) servers ->
  listedCount key (fold_left categoryStep servers acc)
  = listedCount key acc + countCategory key servers.
Proof.
  intro Hs. revert acc. unfold countCategory.
  induction Hs as [|e servers [He Hi] _ IH]; intro acc; simpl; [lia|].
  rewrite IH. unfold categoryStep. rewrite He, Hi.
  destruct (lookup (category e) acc) as [v|] eqn:Hl.
  - rewrite listedCount_increment by congruence.
    destruct (str_eqb (category e) key); simpl; lia.
  - unfold listedCount. rewrite lookup_app. cbn [lookup].
    destruct (str_eqb (category e) key) eqn:E; simpl.
    + apply str_eqb_eq in E. subst key. rewrite Hl. simpl. lia.
    + destruct (lookup key acc); simpl; lia.
Qed.

Section QueryMore.

Variable toLowerCase : str -> str.

(** X16.  The search invents nothing and reorders nothing: its result is
    the snapshot with some entries left out, so it is never longer than the
    snapshot, and with a limit that is not negative it is never longer than
    the limit. *)
Theorem search_result_is_a_sublist (query category_ : option str) (limit : option Z)
    (servers : list Server) :
  sublist (searchServers toLowerCase query category_ limit servers) servers /\
  length (searchServers toLowerCase query category_ limit servers) <= length servers /\
  ((0 <= limitOrDefault limit)%Z ->
   length (searchServers toLowerCase query category_ limit servers)
   <= Z.to_nat (limitOrDefault limit)).
Proof.
  rewrite searchServers_filters.
  destruct (slice0_firstn (limitOrDefault limit)
              (filter (fun s => (specQueryHolds toLowerCase (nonEmpty query) s
                                 && specCategoryHolds toLowerCase (nonEmpty category_) s)%bool)
                 servers)) as [k Hk].
  split; [|split].
  - rewrite Hk. apply sublist_firstn_filter.
  - rewrite Hk, length_firstn.
    pose proof (filter_length_le
                  (fun s => (specQueryHolds toLowerCase (nonEmpty query) s
                             && specCategoryHolds toLowerCase (nonEmpty category_) s)%bool)
                  servers).
    lia.
  - intro H. unfold slice0. apply Z.ltb_ge in H. rewrite H, length_firstn. lia.
Qed.

(** X17.  Raising the limit only appends results: for limits that are not
    negative, the result with the smaller limit is the beginning of the
    result with the larger one. *)
Theorem raising_the_limit_appends (query category_ : option str) (l1 l2 : Z)
    (servers : list Server) :
  (0 <= l1 <= l2)%Z ->
  searchServers toLowerCase query category_ (Some l1) servers
  = firstn (Z.to_nat l1) (searchServers toLowerCase query category_ (Some l2) servers).
Proof.
  intros [H1 H2]. rewrite !searchServers_filters. unfold slice0, limitOrDefault.
  assert ((l1 <? 0)%Z = false) as -> by (apply Z.ltb_ge; lia).
  assert ((l2 <? 0)%Z = false) as -> by (apply Z.ltb_ge; lia).
  rewrite firstn_firstn. f_equal. lia.
Qed.

End QueryMore.

Lemma detailsMatch_true (serverId : str) (s : Server) :
  id s = serverId \/ name s = serverId \/
  id s = lit "mcp-" ++ serverId \/ name s = lit "mcp-" ++ serverId ->
  detailsMatch serverId s = true.
Proof.
  unfold detailsMatch. intros [H | [H | [H | H]]]; rewrite H, str_eqb_refl;
    now rewrite ?orb_true_r.
Qed.

(** X18.  Every entry of the snapshot can be looked up: by its id, by its
    name, and by either of the two without a leading [mcp-].  The entry
    found is the first of the snapshot that answers to the text, which need
    not be the entry one started from. *)
Theorem snapshot_entries_can_be_looked_up (servers : list Server) (e : Server) :
  In e servers ->
  (forall serverId,
      id e = serverId \/ name e = serverId \/
      id e = lit "mcp-" ++ serverId \/ name e = lit "mcp-" ++ serverId ->
      exists found front back,
        findServer serverId servers = Some found /\
        servers = front ++ found :: back /\
        detailsMatch serverId found = true /\
        Forall (fun s => detailsMatch serverId s = false) front).
Proof.
  intros Hin serverId Hm. apply detailsMatch_true in Hm.
  unfold findServer. induction servers as [|s servers IH]; [contradiction|]. simpl.
  destruct (detailsMatch serverId s) eqn:E.
  - exists s, [], servers. repeat split; auto.
  - destruct Hin as [-> | Hin]; [congruence|].
    destruct (IH Hin) as [found [front [back [Hf [Hs [Hd Hfront]]]]]].
    exists found, (s :: front), back.
    split; [exact Hf|]. split; [simpl; now rewrite Hs|]. split; [exact Hd|].
    now constructor.
Qed.

(** X19.  For a snapshot whose categories are neither empty nor names
    inherited from [Object.prototype] (every snapshot the extractor
    produces is such), the count listed with a category is the number of
    entries of that category, and a category of no entry is not listed. *)
Theorem listed_count_is_the_number_of_entries (servers : list Server) :
  Forall (fun e => isEmpty (category e) = false /\ inherited (category e) = false) servers ->
  (forall key, listedCount key (listCategories servers) = countCategory key servers) /\
  (forall key info, In (key, info) (listCategories servers) ->
     count info = countCategory key servers /\ 1 <= count info) /\
  (forall key, countCategory key servers = 0 -> lookup key (listCategories servers) = None).
Proof.
  intro Hord.
  assert (forall key, listedCount key (listCategories servers) = countCategory key servers)
    as Hcount.
  { intro key. unfold listCategories. now rewrite listedCount_from. }
  destruct (listCategories_from (acc := []) Hord (NoDup_nil _) (Forall_nil _))
    as [_ [Hn [_ Hk]]].
  fold (listCategories servers) in Hn, Hk.
  assert (forall key info, In (key, info) (listCategories servers) ->
            lookup key (listCategories servers) = Some info) as Hlook.
  { revert Hn. generalize (listCategories servers) as o.
    induction o as [|[k v] o IH]; simpl; [tauto|].
    intros Hnd key info [Heq | Hin].
    - injection Heq as -> ->. now rewrite str_eqb_refl.
    - apply NoDup_cons_iff in Hnd as [Hk' Hnd].
      destruct (str_eqb k key) eqn:E; [|now apply IH].
      apply str_eqb_eq in E. subst k. exfalso. apply Hk'.
      apply in_map_iff. now exists (key, info). }
  assert (forall key, In key (map category servers) -> 1 <= countCategory key servers)
    as Hpos.
  { intros key Hin. apply in_map_iff in Hin as [e [He Hin]]. unfold countCategory.
    assert (In e (filter (fun e0 => str_eqb (category e0) key) servers)) as Hf.
    { apply filter_In. split; [exact Hin|]. now apply str_eqb_eq. }
    destruct (filter _ servers); [contradiction | simpl; lia]. }
  split; [exact Hcount|]. split.
  - intros key info Hin. specialize (Hcount key). unfold listedCount in Hcount.
    rewrite (Hlook key info Hin) in Hcount. split; [exact Hcount|].
    rewrite Hcount. apply Hpos.
    assert (In key (map fst (listCategories servers))) as Hkey
      by (apply in_map_iff; now exists (key, info)).
    apply Hk in Hkey as [[] | Hkey]. exact Hkey.
  - intros key Hzero. apply lookup_None. intro Hkey.
    apply Hk in Hkey as [[] | Hkey]. apply Hpos in Hkey. lia.
Qed.

(** X20.  The installation block names the package after the entry's name
    with its leading [mcp-] taken off when the entry is of the category
    official, and a name of such an entry that contains no [mcp-] is used
    as it stands; for every other entry the name is used whole and the
    reader is sent to the repository. *)
Theorem installation_strips_the_mcp_prefix (e : Server) :
  (category e = lit "official" ->
   forall slug, name e = lit "mcp-" ++ slug \/
                (name e = slug /\ includes slug (lit "mcp-") = false) ->
     installationInstructions e
     = lit "   **NPM:** `npx @modelcontextprotocol/server-" ++ slug ++ lit "`" ++ nl
       ++ lit "   **Docker:** `docker run mcp/" ++ slug ++ lit "`" ++ nl) /\
  (category e <> lit "official" ->
   installationInstructions e
   = lit "   **NPM:** `npx " ++ name e ++ lit "`" ++ nl
     ++ lit "   **GitHub:** Visit repository for installation instructions" ++ nl).
Proof.
  unfold installationInstructions. split.
  - intros Hc slug Hname. rewrite Hc, str_eqb_refl.
    assert (replaceFirst (lit "mcp-") [] (name e) = slug) as ->; [|reflexivity].
    destruct Hname as [-> | [-> Hno]].
    + apply (replaceFirst_prefix (lit "mcp-") [] slug).
    + now apply replaceFirst_absent.
  - intro Hc. destruct (str_eqb (category e) (lit "official")) eqn:E; [|reflexivity].
    apply str_eqb_eq in E. contradiction.
Qed.

(** *** Instances on the scenario document *)


Lemma snapshot_expires_at_five_minutes_witness :
  (CACHE_DURATION <= now lateDownEnv - lastFetchTime scenarioState)%Z /\
  getServersData asciiToLowerCase lateDownEnv scenarioState
  = (Throw (lit "GitHub API error: 403 rate limit exceeded"), afterFetch scenarioState).
Proof.
  assert (CACHE_DURATION <= now lateDownEnv - lastFetchTime scenarioState)%Z as H
    by (vm_compute; discriminate).
  split; [exact H|].
  exact (proj1 (proj2 (@snapshot_expires_at_five_minutes asciiToLowerCase lateDownEnv
                         scenarioState H)) _ eq_refl).
Defined.

Lemma returned_snapshot_is_cached_and_fresh_witness :
  getServersData asciiToLowerCase (scenarioEnv 0) initialState
    = (Ok scenarioSnapshot, scenarioState) /\
  cacheIsFresh (scenarioEnv 0) scenarioState = true.
Proof.
  assert (getServersData asciiToLowerCase (scenarioEnv 0) initialState
          = (Ok scenarioSnapshot, scenarioState)) as H by (vm_compute; reflexivity).
  split; [exact H|].
  exact (proj2 (proj2 (@returned_snapshot_is_cached_and_fresh asciiToLowerCase
                         (scenarioEnv 0) initialState scenarioState scenarioSnapshot H))).
Defined.

Lemma tool_call_fetches_at_most_once_witness :
  callTool asciiToLowerCase downEnv (registry_get_server_details (Some [])) heldState
  = ({| content := ErrorText (lit "serverId is required"); isError := true |}, heldState).
Proof.
  apply (proj2 (proj2 (@tool_call_fetches_at_most_once asciiToLowerCase downEnv
                         (registry_get_server_details (Some [])) heldState))).
  right. reflexivity.
Defined.

Lemma upstream_failure_is_reported_in_band_witness :
  cacheIsFresh downEnv heldState = false /\
  callTool asciiToLowerCase downEnv registry_list_categories heldState
  = ({| content := ErrorText (lit "GitHub API error: 503 Service Unavailable");
        isError := true |}, afterFetch heldState).
Proof.
  assert (cacheIsFresh downEnv heldState = false) as H by (vm_compute; reflexivity).
  split; [exact H|].
  exact (proj1 (@upstream_failure_is_reported_in_band asciiToLowerCase downEnv heldState
                  _ eq_refl) registry_list_categories eq_refl H).
Defined.

Lemma fresh_reads_leave_the_state_alone_witness :
  cacheIsFresh (scenarioEnv 299999) scenarioState = true /\
  exists cached,
    cachedServers scenarioState = Some cached /\
    callTool asciiToLowerCase (scenarioEnv 299999) registry_list_categories scenarioState
    = ({| content := CategoryList (listCategories cached); isError := false |},
       scenarioState).
Proof.
  assert (cacheIsFresh (scenarioEnv 299999) scenarioState = true) as H
    by (vm_compute; reflexivity).
  split; [exact H|].
  exact (@fresh_reads_leave_the_state_alone asciiToLowerCase (scenarioEnv 299999)
           registry_list_categories scenarioState eq_refl H).
Defined.

Lemma refresh_then_read_uses_the_new_snapshot_witness :
  parseREADMEContent asciiToLowerCase zeroDraws scenarioDoc <> [] /\
  callTool asciiToLowerCase (scenarioEnv 0) registry_refresh_data initialState
  = ({| content := DataRefreshed (length scenarioSnapshot); isError := false |},
     scenarioState) /\
  callTool asciiToLowerCase (scenarioEnv 299999) registry_list_categories scenarioState
  = ({| content := CategoryList (listCategories scenarioSnapshot); isError := false |},
     scenarioState).
Proof.
  assert (parseREADMEContent asciiToLowerCase zeroDraws scenarioDoc <> []) as H
    by (intro E; vm_compute in E; discriminate E).
  assert ((now (scenarioEnv 299999) - now (scenarioEnv 0) < CACHE_DURATION)%Z) as Hwin
    by (vm_compute; reflexivity).
  split; [exact H|].
  destruct (@refresh_then_read_uses_the_new_snapshot asciiToLowerCase (scenarioEnv 0)
              (scenarioEnv 299999) initialState scenarioDoc eq_refl H Hwin) as [H1 H2].
  split; [exact H1 | exact (H2 registry_list_categories eq_refl)].
Defined.

Lemma cache_holds_one_to_fifty_entries_witness :
  reachable asciiToLowerCase
    (snd (callTool asciiToLowerCase (scenarioEnv 0) registry_list_categories initialState)) /\
  1 <= length scenarioSnapshot <= 50.
Proof.
  assert (reachable asciiToLowerCase
            (snd (callTool asciiToLowerCase (scenarioEnv 0) registry_list_categories
                    initialState))) as H by (apply reach_call, reach_init).
  split; [exact H|].
  apply (proj1 (@cache_holds_one_to_fifty_entries asciiToLowerCase _ H)).
  vm_compute. reflexivity.
Defined.

Lemma search_result_is_a_sublist_witness :
  (0 <= limitOrDefault (Some 1%Z))%Z /\
  length (searchServers asciiToLowerCase (Some (lit "s")) None (Some 1%Z) scenarioSnapshot)
  <= Z.to_nat 1.
Proof.
  assert (0 <= limitOrDefault (Some 1%Z))%Z as H by (vm_compute; discriminate).
  split; [exact H|].
  exact (proj2 (proj2 (@search_result_is_a_sublist asciiToLowerCase (Some (lit "s")) None
                         (Some 1%Z) scenarioSnapshot)) H).
Defined.

Lemma raising_the_limit_appends_witness :
  (0 <= 1 <= 2)%Z /\
  searchServers asciiToLowerCase None None (Some 1%Z) scenarioSnapshot
  = firstn (Z.to_nat 1)
      (searchServers asciiToLowerCase None None (Some 2%Z) scenarioSnapshot).
Proof.
  assert (0 <= 1 <= 2)%Z as H by lia.
  split; [exact H|].
  exact (@raising_the_limit_appends asciiToLowerCase None None 1%Z 2%Z scenarioSnapshot H).
Defined.

Lemma snapshot_entries_can_be_looked_up_witness :
  In filesystemEntry scenarioSnapshot /\
  exists found front back,
    findServer (lit "filesystem") scenarioSnapshot = Some found /\
    scenarioSnapshot = front ++ found :: back /\
    detailsMatch (lit "filesystem") found = true /\
    Forall (fun s => detailsMatch (lit "filesystem") s = false) front.
Proof.
  assert (In filesystemEntry scenarioSnapshot) as H by (vm_compute; left; reflexivity).
  split; [exact H|].
  apply (@snapshot_entries_can_be_looked_up scenarioSnapshot filesystemEntry H).
  right; right; left. reflexivity.
Defined.

Lemma listed_count_is_the_number_of_entries_witness :
  Forall (fun e => isEmpty (category e) = false /\ inherited (category e) = false)
    scenarioSnapshot /\
  listedCount (lit "community") (listCategories scenarioSnapshot)
  = countCategory (lit "community") scenarioSnapshot.
Proof.
  assert (Forall (fun e => isEmpty (category e) = false /\ inherited (category e) = false)
            scenarioSnapshot) as H.
  { eapply Forall_impl;
      [|apply (@parseREADMEContent_categories asciiToLowerCase zeroDraws scenarioDoc)].
    intros e He. now apply extractedCategory_ordinary. }
  split; [exact H|].
  exact (proj1 (@listed_count_is_the_number_of_entries scenarioSnapshot H)
           (lit "community")).
Defined.

Lemma installation_strips_the_mcp_prefix_witness :
  category filesystemEntry = lit "official" /\
  installationInstructions filesystemEntry
  = lit "   **NPM:** `npx @modelcontextprotocol/server-" ++ lit "filesystem" ++ lit "`" ++ nl
    ++ lit "   **Docker:** `docker run mcp/" ++ lit "filesystem" ++ lit "`" ++ nl.
Proof.
  split; [reflexivity|].
  apply (proj1 (@installation_strips_the_mcp_prefix filesystemEntry) eq_refl).
  left. reflexivity.
Defined.

End MoreFacts.
